(** * DenimSupplierWizard: the wizard's state-management core

    A shallow embedding of the state logic of [DenimSupplierWizard.tsx]:
    the step navigation ([STEPS], [next], [back], the [onKey] handler),
    the helpers at the bottom of the file ([setAt], [toNum], [mapPh], the
    [toggle] of [Checkset]) and the autosave effect, alone and next to
    the keyboard effect in the mounted component.

    JavaScript objects live in an explicit store, because [setAt] copies
    the root object only and writes through shared references below it.
    Strings are byte strings holding the UTF-8 text of the source; every
    separator and prefix the code tests for is ASCII, so splitting and
    prefix tests agree with the UTF-16 view of the same text. *)

From Stdlib Require Import ZArith NArith Ascii String List Bool Lia.
From stdpp Require Import base option list gmap strings.

Local Open Scope string_scope.
Local Open Scope Z_scope.
Local Open Scope list_scope.

(** The empty string [""] of the source. *)
Abbreviation estr := EmptyString.

(* ===================================================================== *)
(** ** Steps and navigation *)
(* ===================================================================== *)

Module Nav.

Inductive StepKey : Type :=
  | warp | indigo | shade | etp | footprints | safety | handover.

#[global] Instance StepKey_eq_dec : EqDecision StepKey.
Proof. solve_decision. Defined.

Record StepInfo := { key : StepKey; label : string }.

(** [STEPS]: the fixed order of the seven steps (icons left out). *)
Definition STEPS : list StepInfo :=
  [ {| key := warp;       label := "Warp & Range" |};
    {| key := indigo;     label := "Indigo & Sizing" |};
    {| key := shade;      label := "Shade & Finish" |};
    {| key := etp;        label := "Effluent / ETP" |};
    {| key := footprints; label := "Footprints" |};
    {| key := safety;     label := "Safety" |};
    {| key := handover;   label := "Handover" |} ].

(** [Array.prototype.findIndex]: the first index whose element satisfies
    [p], or [-1]. *)
Fixpoint findIndex_from {A} (p : A -> bool) (l : list A) (i : Z) : Z :=
  match l with
  | [] => -1
  | x :: l' => if p x then i else findIndex_from p l' (i + 1)
  end.

Definition findIndex {A} (p : A -> bool) (l : list A) : Z :=
  findIndex_from p l 0.

Definition is_step (s : StepKey) (i : StepInfo) : bool :=
  bool_decide (key i = s).

(** [STEPS[i].key]; the guards of [next] and [back] keep [i] in range, the
    out-of-range case (a [TypeError] in the source) is [None]. *)
Definition step_at (i : Z) : option StepKey :=
  if i <? 0 then None else key <$> (STEPS !! Z.to_nat i).

(** [next]: [setStep] is called only under the guard; otherwise the
    current step stays. *)
Definition next (step : StepKey) : StepKey :=
  let idx := findIndex (is_step step) STEPS in
  if idx <? Z.of_nat (length STEPS) - 1
  then default step (step_at (idx + 1))
  else step.

Definition back (step : StepKey) : StepKey :=
  let idx := findIndex (is_step step) STEPS in
  if idx >? 0
  then default step (step_at (idx - 1))
  else step.

Definition first_step : StepKey := warp.
Definition last_step : StepKey := handover.

(** *** The keyboard handler *)

(** What [onKey] reads from the event.  [within] is the outcome of
    [containerRef.current?.contains(target)]. *)
Record KeyboardEvent := {
  ekey : string;
  ctrlKey : bool;
  metaKey : bool;
  shiftKey : bool;
  within : bool
}.

(** The navigation state: the three [useState] cells next to [step], and
    whether the palette [<dialog>] has been opened by [showModal()] and not
    yet closed by [close()]. *)
Record NavigationState := {
  step : StepKey;
  advancedOpen : bool;
  openAccordion : option string;
  whyOpen : bool;
  paletteOpen : bool
}.

(** What a run of the handler does besides setting React state. *)
Inductive effect : Type :=
  | PreventDefault
  | PaletteShowModal
  | PaletteClose
  | StorageWriteNow.

(** [String.prototype.toLowerCase] on the keys the handler compares:
    ASCII capitals, and the Kelvin sign U+212A, the one character outside
    ASCII whose lower case is an ASCII letter. *)
Definition lower_ascii (c : ascii) : ascii :=
  let n := N_of_ascii c in
  if ((65 <=? n) && (n <=? 90))%N then ascii_of_N (n + 32) else c.

Fixpoint toLowerCase (s : string) : string :=
  match s with
  | EmptyString => EmptyString
  | String c s' =>
      match c, s' with
      | "226"%char, String "132"%char (String "170"%char r) =>
          String "k"%char (toLowerCase r)
      | _, _ => String (lower_ascii c) (toLowerCase s')
      end
  end.

Definition setStep (k : StepKey) (n : NavigationState) : NavigationState :=
  {| step := k; advancedOpen := advancedOpen n;
     openAccordion := openAccordion n; whyOpen := whyOpen n;
     paletteOpen := paletteOpen n |}.

Definition close_overlays (n : NavigationState) : NavigationState :=
  {| step := step n; advancedOpen := false;
     openAccordion := None; whyOpen := false;
     paletteOpen := paletteOpen n |}.

Definition showModal (n : NavigationState) : NavigationState :=
  {| step := step n; advancedOpen := advancedOpen n;
     openAccordion := openAccordion n; whyOpen := whyOpen n;
     paletteOpen := true |}.

(** One conditional of the handler: run [f] when [c] holds. *)
Definition when {A} (c : bool) (f : A -> A) (a : A) : A :=
  if c then f a else a.

(** [onKey]: the five [if]s in the order of the source.  [step] is the
    step the handler closes over, the one of the render that installed
    it; the handler's work is an update of the navigation state and the
    effects it issues, in order. *)
Definition onKey (step : StepKey) (e : KeyboardEvent) (n : NavigationState)
  : NavigationState * list effect :=
  if negb (within e) then (n, [])
  else
    let st0 := (n, []) in
    let st1 :=
      when ((ctrlKey e || metaKey e) && bool_decide (toLowerCase (ekey e) = "k"))
           (fun '(n, fx) => (showModal n, fx ++ [PreventDefault; PaletteShowModal]))
           st0 in
    let st2 :=
      when ((ctrlKey e || metaKey e) && bool_decide (toLowerCase (ekey e) = "s"))
           (fun '(n, fx) => (n, fx ++ [PreventDefault; StorageWriteNow]))
           st1 in
    let st3 :=
      when (bool_decide (ekey e = "Escape"))
           (fun '(n, fx) => (close_overlays n, fx))
           st2 in
    let st4 :=
      when (bool_decide (ekey e = "Tab") && negb (shiftKey e))
           (fun '(n, fx) => (setStep (next step) n, fx ++ [PreventDefault]))
           st3 in
    let st5 :=
      when (bool_decide (ekey e = "Tab") && shiftKey e)
           (fun '(n, fx) => (setStep (back step) n, fx ++ [PreventDefault]))
           st4 in
    st5.

(** A key pressed inside the container, with no Ctrl or Meta held. *)
Definition key_event (k : string) (shift : bool) : KeyboardEvent :=
  {| ekey := k; ctrlKey := false; metaKey := false;
     shiftKey := shift; within := true |}.

End Nav.

(* ===================================================================== *)
(** ** A key press as the browser handles it *)
(* ===================================================================== *)

Module Platform.
Import Nav.

#[global] Instance effect_eq_dec : EqDecision effect.
Proof. solve_decision. Defined.

(** [paletteRef.current.close()], and what the browser does to the
    dialog when it closes it itself. *)
Definition close (n : NavigationState) : NavigationState :=
  {| step := step n; advancedOpen := advancedOpen n;
     openAccordion := openAccordion n; whyOpen := whyOpen n;
     paletteOpen := false |}.

(** The default action of the key, which the browser takes after the
    listeners have run unless one of them called [preventDefault()]:
    Escape is a close request to an open modal dialog, and the palette
    ([<dialog>], opened with [showModal()], no [cancel] listener) closes.
    This is the behaviour the HTML standard gives a modal dialog; the
    source relies on it and has no code for it. *)
Definition default_action (e : KeyboardEvent) (prevented : bool)
    (n : NavigationState) : NavigationState :=
  if bool_decide (ekey e = "Escape") && negb prevented && paletteOpen n
  then close n else n.

(** A [keydown] event on the window: the listener [onKey], then the
    default action. *)
Definition keydown (step : StepKey) (e : KeyboardEvent) (n : NavigationState)
  : NavigationState * list effect :=
  let '(n1, fx) := onKey step e n in
  (default_action e (bool_decide (PreventDefault ∈ fx)) n1, fx).

End Platform.

(* ===================================================================== *)
(** ** Numbers and [Number(s)] *)
(* ===================================================================== *)

Module Num.

(** A JavaScript number: [NaN], an infinity, or a signed decimal
    [mant * 10^exp].  Every binary64 value is such a decimal, and so is
    the exact value of every numeric literal; [Number] rounds the latter
    to the former. *)
Inductive number : Type :=
  | NaN
  | Infinity (neg : bool)
  | Decimal (neg : bool) (mant : N) (exp : Z).

#[global] Instance number_eq_dec : EqDecision number.
Proof. solve_decision. Defined.

Definition code (c : ascii) : N := N_of_ascii c.

(** [StrWhiteSpaceChar] with one byte: TAB, LF, VT, FF, CR, SP. *)
Definition ws1 (c : ascii) : bool :=
  let n := code c in
  ((9 <=? n) && (n <=? 13) || (n =? 32))%N.

(** Third byte of the three-byte white space that starts E2 80: U+2000 to
    U+200A, U+2028, U+2029, U+202F. *)
Definition ws_e280 (c : ascii) : bool :=
  let n := code c in
  ((128 <=? n) && (n <=? 138) || (n =? 168) || (n =? 169) || (n =? 175))%N.

(** Drop leading [StrWhiteSpace]: the one-byte characters, U+00A0, U+1680,
    those of [ws_e280], U+205F, U+3000 and U+FEFF in their UTF-8 form. *)
Fixpoint skip_ws (s : string) : string :=
  match s with
  | EmptyString => EmptyString
  | String c r =>
      if ws1 c then skip_ws r
      else
        match code c, r with
        | 194%N, String d r' =>
            if (code d =? 160)%N then skip_ws r' else s
        | 225%N, String d (String f r') =>
            if ((code d =? 154) && (code f =? 128))%N then skip_ws r' else s
        | 226%N, String d (String f r') =>
            if ((code d =? 128)%N && ws_e280 f) || ((code d =? 129) && (code f =? 159))%N
            then skip_ws r' else s
        | 227%N, String d (String f r') =>
            if ((code d =? 128) && (code f =? 128))%N then skip_ws r' else s
        | 239%N, String d (String f r') =>
            if ((code d =? 187) && (code f =? 191))%N then skip_ws r' else s
        | _, _ => s
        end
  end.

(** The value of a digit in base [b], if the byte is one. *)
Definition digit_val (b : N) (c : ascii) : option N :=
  let n := code c in
  let v :=
    if ((48 <=? n) && (n <=? 57))%N then Some (n - 48)%N
    else if ((97 <=? n) && (n <=? 102))%N then Some (n - 87)%N
    else if ((65 <=? n) && (n <=? 70))%N then Some (n - 55)%N
    else None in
  match v with
  | Some d => if (d <? b)%N then Some d else None
  | None => None
  end.

(** Read the longest run of base-[b] digits: its value with accumulator
    [acc], how many digits were read, and the rest of the text. *)
Fixpoint take_digits (b : N) (acc : N) (cnt : nat) (s : string)
  : N * nat * string :=
  match s with
  | EmptyString => (acc, cnt, s)
  | String c r =>
      match digit_val b c with
      | Some d => take_digits b (acc * b + d)%N (S cnt) r
      | None => (acc, cnt, s)
      end
  end.

(** [ExponentPart]: [e] or [E], an optional sign, at least one digit.
    [None] when the text does not start with one. *)
Definition exponent_part (s : string) : option (Z * string) :=
  match s with
  | String c r =>
      if (code c =? 101)%N || (code c =? 69)%N then
        let '(neg, r1) :=
          match r with
          | String "-"%char r' => (true, r')
          | String "+"%char r' => (false, r')
          | _ => (false, r)
          end in
        let '(e, cnt, r2) := take_digits 10 0 0 r1 in
        match cnt with
        | O => None
        | S _ => Some (if neg then - Z.of_N e else Z.of_N e, r2)
        end
      else None
  | EmptyString => None
  end.

(** [StrUnsignedDecimalLiteral]: [Infinity], digits with an optional
    fraction, or a fraction alone, then an optional exponent. *)
Definition unsigned_decimal (neg : bool) (s : string)
  : option (number * string) :=
  if String.prefix "Infinity" s
  then Some (Infinity neg, String.substring 8 (String.length s - 8) s)
  else
    let '(i, ni, r1) := take_digits 10 0 0 s in
    let '(mant, nd, ex, r2) :=
      match r1 with
      | String "."%char r' =>
          let '(m, nf, r'') := take_digits 10 i 0 r' in
          (m, (ni + nf)%nat, - Z.of_nat nf, r'')
      | _ => (i, ni, 0, r1)
      end in
    match nd with
    | O => None
    | S _ =>
        match exponent_part r2 with
        | Some (e, r3) => Some (Decimal neg mant (ex + e), r3)
        | None => Some (Decimal neg mant ex, r2)
        end
    end.

(** [NonDecimalIntegerLiteral]: [0x], [0o], [0b] and at least one digit. *)
Definition non_decimal (s : string) : option (number * string) :=
  match s with
  | String "0"%char (String c r) =>
      let n := code c in
      let base :=
        if (n =? 120)%N || (n =? 88)%N then Some 16%N
        else if (n =? 111)%N || (n =? 79)%N then Some 8%N
        else if (n =? 98)%N || (n =? 66)%N then Some 2%N
        else None in
      match base with
      | Some b =>
          let '(v, cnt, r') := take_digits b 0 0 r in
          match cnt with
          | O => None
          | S _ => Some (Decimal false v 0, r')
          end
      | None => None
      end
  | _ => None
  end.

(** [StrNumericLiteral]. *)
Definition numeric_literal (s : string) : option (number * string) :=
  match non_decimal s with
  | Some r => Some r
  | None =>
      match s with
      | String "-"%char r => unsigned_decimal true r
      | String "+"%char r => unsigned_decimal false r
      | _ => unsigned_decimal false s
      end
  end.

(** The mathematical value of the text as a [StringNumericLiteral],
    before any rounding: white space alone is [+0]; a numeric literal
    between optional white space is its exact value; anything else is
    [NaN]. *)
Definition MV (s : string) : number :=
  match skip_ws s with
  | EmptyString => Decimal false 0 0
  | s1 =>
      match numeric_literal s1 with
      | Some (n, rest) =>
          match skip_ws rest with
          | EmptyString => n
          | _ => NaN
          end
      | None => NaN
      end
  end.

(** The value [m * 10^e] as a fraction of two integers. *)
Definition numerator (m : N) (e : Z) : Z :=
  if 0 <=? e then Z.of_N m * 10 ^ e else Z.of_N m.

Definition denominator (e : Z) : Z :=
  if 0 <=? e then 1 else 10 ^ (- e).

(** [num / den] rounded to the nearest integer, a tie to the even one. *)
Definition half_even (num den : Z) : Z :=
  let m := num / den in
  match 2 * (num mod den) ?= den with
  | Lt => m
  | Gt => m + 1
  | Eq => if Z.even m then m else m + 1
  end.

(** The rounding of a mathematical value to binary64, round to nearest,
    ties to even.  The value [num / q] is counted in units of [2^-1074],
    the smallest binary64 step; from [2^53] units on the step is [2^k]
    units, with [k] such that 53 bits are kept.  [round_units] gives the
    rounded count of units and whether the value was such a count
    already.  A value that rounds to [2^1024] or more is an infinity; a
    value that is a binary64 number stays as it is written; any other
    becomes the multiple of [2^-1074] next to it, written as a decimal. *)
Definition round_units (num q : Z) : Z * bool :=
  let k := Z.max 0 (Z.log2 (num / q) - 52) in
  (half_even num (q * 2 ^ k) * 2 ^ k, num mod (q * 2 ^ k) =? 0).

Definition RoundMVResult (n : number) : number :=
  match n with
  | Decimal neg m e =>
      let '(units, exact) :=
        round_units (numerator m e * 2 ^ 1074) (denominator e) in
      if 2 ^ 2098 <=? units then Infinity neg
      else if exact then n
      else Decimal neg (Z.to_N (units * 5 ^ 1074)) (-1074)
  | _ => n
  end.

(** [Number(s)] for a string [s] ([StringToNumber]): the mathematical
    value of the text, rounded. *)
Definition Number (s : string) : number := RoundMVResult (MV s).

(** The number is a zero ([+0] or [-0]). *)
Definition is_zero (n : number) : bool :=
  match n with
  | Decimal _ m _ => (m =? 0)%N
  | _ => false
  end.

Definition is_NaN (n : number) : bool :=
  match n with NaN => true | _ => false end.

(** The number a run of decimal digits denotes, after the digits [acc]. *)
Fixpoint decimal_value (acc : N) (s : string) : N :=
  match s with
  | EmptyString => acc
  | String c r => decimal_value (acc * 10 + (code c - 48))%N r
  end.

Definition is_digit (c : ascii) : bool := bool_decide (is_Some (digit_val 10 c)).

(** Every character is the digit 0. *)
Definition all_zeros (s : string) : bool :=
  forallb (fun c => bool_decide (c = "0"%char)) (list_ascii_of_string s).

(** A non-empty run of decimal digits. *)
Definition all_digits (s : string) : bool :=
  match s with
  | EmptyString => false
  | _ => forallb is_digit (list_ascii_of_string s)
  end.

(** The text does not go on with a decimal digit. *)
Definition stops (s : string) : bool :=
  match s with
  | EmptyString => true
  | String c _ => negb (is_digit c)
  end.

(** A decimal numeral, the text a number input delivers: an optional
    minus sign; digits, a fraction, or both; an optional exponent. *)
Definition fraction (s : string) : Prop :=
  exists ds, s = String "."%char ds /\ all_digits ds = true.

Definition exponent (s : string) : Prop :=
  exists e sg ds,
    s = String e (sg +:+ ds) /\ (e = "e"%char \/ e = "E"%char) /\
    (sg = estr \/ sg = "+" \/ sg = "-") /\ all_digits ds = true.

Definition numeral (s : string) : Prop :=
  exists sg int fr ex,
    s = sg +:+ int +:+ fr +:+ ex /\
    (sg = estr \/ sg = "-") /\
    ((all_digits int = true /\ (fr = estr \/ fraction fr)) \/
     (int = estr /\ fraction fr)) /\
    (ex = estr \/ exponent ex).

(** The value is not zero and is at most [2^-1075], half the smallest
    binary64 step: it rounds to zero. *)
Definition underflows (n : number) : bool :=
  match n with
  | Decimal _ m e =>
      (0 <? m)%N && (numerator m e * 2 ^ 1075 <=? denominator e)
  | _ => false
  end.

End Num.

(* ===================================================================== *)
(** ** The object store and [setAt] *)
(* ===================================================================== *)

Module Store.

(** A JavaScript value.  Objects and arrays are references into the
    store, so that two variables can hold the same object. *)
Inductive val : Type :=
  | VUndef
  | VNull
  | VBool (b : bool)
  | VNum (n : Num.number)
  | VStr (s : string)
  | VRef (l : nat).

#[global] Instance val_eq_dec : EqDecision val.
Proof. solve_decision. Defined.

(** A stored object: a plain object with its own properties, or an
    array with its elements. *)
Inductive cell : Type :=
  | CObj (props : gmap string val)
  | CArr (elems : list val).

#[global] Instance cell_eq_dec : EqDecision cell.
Proof. solve_decision. Defined.

(** The store: the object at reference [l] is the [l]-th cell.  A new
    object goes to the end, so its reference is the length of the store. *)
Abbreviation heap := (list cell).

(** How a piece of code ends: it returns, it throws, or it leaves the
    fragment of JavaScript this development follows ([Beyond]): property
    access that reaches a prototype, and property access on an array. *)
Inductive outcome (A : Type) : Type :=
  | Ret (a : A)
  | Throw
  | Beyond.
Arguments Ret {A} a.
Arguments Throw {A}.
Arguments Beyond {A}.

#[global] Instance outcome_bind : MBind outcome :=
  fun A B f m =>
    match m with
    | Ret a => f a
    | Throw => Throw
    | Beyond => Beyond
    end.

(** The property names every object inherits from [Object.prototype]. *)
Definition inherited_names : list string :=
  [ "constructor"; "__proto__"; "hasOwnProperty"; "isPrototypeOf";
    "propertyIsEnumerable"; "toLocaleString"; "toString"; "valueOf";
    "__defineGetter__"; "__defineSetter__"; "__lookupGetter__";
    "__lookupSetter__" ].

Definition inherited (k : string) : bool := bool_decide (k ∈ inherited_names).

(** [x ?? ...] looks at [x] being [null] or [undefined]. *)
Definition nullish (v : val) : bool :=
  match v with
  | VUndef | VNull => true
  | _ => false
  end.

(** [c[k]] as an expression: an own property, [undefined] when there is
    none and none is inherited. *)
Definition get_prop (c : cell) (k : string) : outcome val :=
  match c with
  | CObj props =>
      match props !! k with
      | Some v => Ret v
      | None => if inherited k then Beyond else Ret VUndef
      end
  | CArr _ => Beyond
  end.

(** [c[k] = v]: sets or creates the own property; [__proto__] without an
    own property of that name is the inherited setter. *)
Definition set_prop (c : cell) (k : string) (v : val) : outcome cell :=
  match c with
  | CObj props =>
      match props !! k with
      | None =>
          if bool_decide (k = "__proto__") then Beyond
          else Ret (CObj (<[k := v]> props))
      | Some _ => Ret (CObj (<[k := v]> props))
      end
  | CArr _ => Beyond
  end.

Definition read (h : heap) (l : nat) : outcome cell :=
  match h !! l with
  | Some c => Ret c
  | None => Beyond
  end.

Definition getp (h : heap) (l : nat) (k : string) : outcome val :=
  c ← read h l; get_prop c k.

Definition setp (h : heap) (l : nat) (k : string) (v : val) : outcome heap :=
  c ← read h l; c' ← set_prop c k v; Ret (<[l := c']> h).

(** Assigning a property of a primitive value in strict code (the file
    is a module) throws a [TypeError], except through the [__proto__]
    setter. *)
Definition assign_on_primitive (k : string) : outcome heap :=
  if bool_decide (k = "__proto__") then Beyond else Throw.

(** [path.split(".")]: never empty. *)
Fixpoint split (sep : ascii) (s : string) : list string :=
  match s with
  | EmptyString => [estr]
  | String c s' =>
      if bool_decide (c = sep) then estr :: split sep s'
      else
        match split sep s' with
        | x :: xs => String c x :: xs
        | [] => [String c estr]
        end
  end.

(** [{ ...obj }] and [[...obj]]: a new object with the same own
    properties, a new array with the same elements. *)
Definition spread (c : cell) : cell :=
  match c with
  | CObj props => CObj props
  | CArr elems => CArr elems
  end.

(** The loop of [setAt] and the assignment after it.  [cur] is the object
    the loop stands on, [ks] the segments still to walk, [lastk] the last
    segment.  Each round does [cur[k] = cur[k] ?? {}; cur = cur[k]]: the
    object found under [k] is entered as it is, not copied. *)
Fixpoint walk (h : heap) (cur : nat) (ks : list string) (lastk : string)
    (value : val) : outcome heap :=
  match ks with
  | [] => setp h cur lastk value
  | k :: ks' =>
      x ← getp h cur k;
      let '(h1, nxt) :=
        if nullish x then (h ++ [CObj ∅], VRef (length h)) else (h, x) in
      h2 ← setp h1 cur k nxt;
      match nxt with
      | VRef l => walk h2 l ks' lastk value
      | _ => assign_on_primitive (hd lastk ks')
      end
  end.

(** [setAt(obj, path, value)]: the new store and the reference of the
    clone it returns. *)
Definition setAt (h : heap) (obj : nat) (path : string) (value : val)
  : outcome (heap * nat) :=
  let parts := split "." path in
  c ← read h obj;
  let clone := length h in
  let h0 := h ++ [spread c] in
  h' ← walk h0 clone (removelast parts) (List.last parts estr) value;
  Ret (h', clone).

(** [v[k]] read by a caller: [obj.section], [obj.section.field]. *)
Definition get (h : heap) (v : val) (k : string) : outcome val :=
  match v with
  | VRef l => getp h l k
  | VUndef | VNull => Throw
  | _ => Beyond
  end.

(** *** Reading a store as data *)

(** The values an object holds. *)
Definition holds (c : cell) (v : val) : Prop :=
  match c with
  | CObj props => exists k, props !! k = Some v
  | CArr elems => v ∈ elems
  end.

(** No value refers past the end of the store. *)
Definition val_closed (h : heap) (v : val) : Prop :=
  match v with
  | VRef l => (l < length h)%nat
  | _ => True
  end.

Definition heap_closed (h : heap) : Prop :=
  forall l c v, h !! l = Some c -> holds c v -> val_closed h v.

(** [v] unfolds to a finite tree: following references from [v] never
    comes back to an object already passed. *)
Inductive finite (h : heap) : val -> Prop :=
  | finite_prim v : (forall l, v <> VRef l) -> finite h v
  | finite_ref l c :
      h !! l = Some c ->
      (forall v, holds c v -> finite h v) ->
      finite h (VRef l).

(** Deep equality down to depth [n]: equal primitives; objects with the
    same keys and arrays of the same length whose parts are deep-equal to
    depth [n - 1]. *)
Fixpoint deep_equal_to (n : nat) (h1 : heap) (v1 : val) (h2 : heap) (v2 : val)
  : Prop :=
  match n with
  | O => True
  | S n' =>
      match v1, v2 with
      | VRef l1, VRef l2 =>
          match h1 !! l1, h2 !! l2 with
          | Some (CObj p1), Some (CObj p2) =>
              forall k, option_Forall2 (fun a b => deep_equal_to n' h1 a h2 b)
                                       (p1 !! k) (p2 !! k)
          | Some (CArr e1), Some (CArr e2) =>
              Forall2 (fun a b => deep_equal_to n' h1 a h2 b) e1 e2
          | _, _ => False
          end
      | VRef _, _ | _, VRef _ => False
      | _, _ => v1 = v2
      end
  end.

(** [v1] in store [h1] is deep-equal to [v2] in store [h2]. *)
Definition deep_equal (h1 : heap) (v1 : val) (h2 : heap) (v2 : val) : Prop :=
  forall n, deep_equal_to n h1 v1 h2 v2.

(** Closedness and finiteness as checks that run on a given store. *)
Definition cell_vals (c : cell) : list val :=
  match c with
  | CObj props => (map_to_list props).*2
  | CArr elems => elems
  end.

Definition val_closedb (h : heap) (v : val) : bool :=
  match v with
  | VRef l => bool_decide (l < length h)%nat
  | _ => true
  end.

Definition heap_closedb (h : heap) : bool :=
  forallb (fun c => forallb (val_closedb h) (cell_vals c)) h.

(** [finiteb n h v]: [v] unfolds to a tree of height below [n]. *)
Fixpoint finiteb (n : nat) (h : heap) (v : val) : bool :=
  match n with
  | O => false
  | S n' =>
      match v with
      | VRef l =>
          match h !! l with
          | Some c => forallb (finiteb n' h) (cell_vals c)
          | None => false
          end
      | _ => true
      end
  end.

(** [x] is [l] or an object met by following references from [l]. *)
Inductive reach (h : heap) : nat -> nat -> Prop :=
  | reach_refl l : reach h l l
  | reach_step l c l' x :
      h !! l = Some c -> holds c (VRef l') -> reach h l' x -> reach h l x.

(** A segment without a dot, and the path ["section.field"] a caller
    writes. *)
Definition no_dot (s : string) : bool :=
  forallb (fun c => negb (bool_decide (c = "."%char))) (list_ascii_of_string s).

Definition path_of (section field : string) : string :=
  section +:+ "." +:+ field.

End Store.

(* ===================================================================== *)
(** ** The helpers of the form fields *)
(* ===================================================================== *)

Module Utils.
Import Store.

(** [toNum]: [s === "" ? undefined : Number(s)]. *)
Definition toNum (s : string) : val :=
  if bool_decide (s = estr) then VUndef else VNum (Num.Number s).

(** [String.prototype.startsWith] with an ASCII prefix. *)
Definition startsWith (s p : string) : bool := String.prefix p s.

(** [mapPh]: the three tests in the order of the source. *)
Definition mapPh (v : string) : string :=
  if startsWith v "10.0" then "10.0–10.4"
  else if startsWith v "10.5" then "10.5–11.5"
  else if startsWith v "11.6" then "11.6–12.0"
  else v.

(** The options the pH select displays. *)
Definition ph_options : list string :=
  [ "10.0–10.4"; "10.5–11.5 (mono-enolate)"; "11.6–12.0" ].

(** *** [Set] and the [toggle] of [Checkset]

    A [Set] of strings keeps its elements in insertion order without
    repetition; it is the list of its elements in that order. *)
Definition Set_has (s : list string) (o : string) : bool :=
  bool_decide (o ∈ s).

Definition Set_add (s : list string) (o : string) : list string :=
  if Set_has s o then s else s ++ [o].

Definition Set_delete (s : list string) (o : string) : list string :=
  filter (fun x => x <> o) s.

(** [new Set(values)]: the elements are added one by one. *)
Definition new_Set (values : list string) : list string :=
  foldl Set_add [] values.

Definition Array_from (s : list string) : list string := s.

(** [toggle(o)]: the list handed to [onChange]. *)
Definition toggle (values : list string) (o : string) : list string :=
  let set := new_Set values in
  let set' := if Set_has set o then Set_delete set o else Set_add set o in
  Array_from set'.

End Utils.

(* ===================================================================== *)
(** ** The wizard document *)
(* ===================================================================== *)

Module Wizard.
Import Store.

(** The seven top-level keys of [WizardState]. *)
Definition SECTIONS : list string :=
  [ "warp_range"; "indigo_control"; "shade_finish"; "etp"; "footprints";
    "safety"; "handover" ].

(** The store once the module is loaded: [DEFAULT_STATE] at reference 0
    and its seven empty sections at 1 to 7. *)
Definition DEFAULT_STATE : nat := 0%nat.

Definition default_root : gmap string val :=
  <["warp_range" := VRef 1]> (<["indigo_control" := VRef 2]>
  (<["shade_finish" := VRef 3]> (<["etp" := VRef 4]>
  (<["footprints" := VRef 5]> (<["safety" := VRef 6]>
  (<["handover" := VRef 7]> ∅)))))).

Definition module_heap : heap :=
  CObj default_root :: replicate 7 (CObj ∅).

(** A value of JSON text. *)
#[local] Unset Elimination Schemes.
Inductive json : Type :=
  | JNull
  | JBool (b : bool)
  | JNum (n : Num.number)
  | JStr (s : string)
  | JArr (items : list json)
  | JObj (members : list (string * json)).
#[local] Set Elimination Schemes.

(** The JavaScript value [JSON.parse] builds for a JSON value: new
    objects and arrays in the store; of two members with one name the
    later one stays. *)
Fixpoint build (j : json) (h : heap) : heap * val :=
  match j with
  | JNull => (h, VNull)
  | JBool b => (h, VBool b)
  | JNum n => (h, VNum n)
  | JStr s => (h, VStr s)
  | JArr items =>
      let '(h1, vs) :=
        (fix items_of (l : list json) (h : heap) : heap * list val :=
           match l with
           | [] => (h, [])
           | x :: r =>
               let '(h1, v) := build x h in
               let '(h2, vs) := items_of r h1 in
               (h2, v :: vs)
           end) items h in
      (h1 ++ [CArr vs], VRef (length h1))
  | JObj members =>
      let '(h1, props) :=
        (fix members_of (l : list (string * json)) (h : heap)
           : heap * gmap string val :=
           match l with
           | [] => (h, ∅)
           | (k, x) :: r =>
               let '(h1, v) := build x h in
               let '(h2, m) := members_of r h1 in
               (h2, match m !! k with Some _ => m | None => <[k := v]> m end)
           end) members h in
      (h1 ++ [CObj props], VRef (length h1))
  end.

(** What [localStorage.getItem("denimWizard")] and [JSON.parse] come to at
    startup: the read throws, there is no entry, or there is the text
    [raw], which [JSON.parse] turns into [parsed] ([None]: it throws). *)
Inductive storage_read : Type :=
  | ReadThrows
  | ReadNull
  | ReadText (raw : string) (parsed : option json).

(** The initial value of [state]: the initializer of [useState].  An
    empty [raw] is falsy; whatever the text parses to is taken as the
    document, without a check. *)
Definition initial_state (r : storage_read) : heap * val :=
  match r with
  | ReadText raw (Some j) =>
      if bool_decide (raw = estr) then (module_heap, VRef DEFAULT_STATE)
      else build j module_heap
  | _ => (module_heap, VRef DEFAULT_STATE)
  end.

(** The document has the seven sections, each an object. *)
Definition has_sections (h : heap) (state : val) : Prop :=
  exists d props,
    state = VRef d /\ h !! d = Some (CObj props) /\
    forall s, s ∈ SECTIONS ->
      exists l p, props !! s = Some (VRef l) /\ h !! l = Some (CObj p).

Definition has_sectionsb (h : heap) (state : val) : bool :=
  match state with
  | VRef d =>
      match h !! d with
      | Some (CObj props) =>
          forallb (fun s => match props !! s with
                            | Some (VRef l) =>
                                match h !! l with
                                | Some (CObj _) => true
                                | _ => false
                                end
                            | _ => false
                            end) SECTIONS
      | _ => false
      end
  | _ => false
  end.

(** [onSelect]: [setState(prev => setAt(prev, path, value))], for a state
    that is an object. *)
Definition onSelect (h : heap) (state : val) (path : string) (value : val)
  : outcome (heap * val) :=
  match state with
  | VRef d => '(h', r) ← setAt h d path value; Ret (h', VRef r)
  | _ => Beyond
  end.

(** The [onChange] of the pH select:
    [onSelect("indigo_control.ph_window", mapPh(v))]. *)
Definition ph_onChange (h : heap) (state : val) (v : string)
  : outcome (heap * val) :=
  onSelect h state "indigo_control.ph_window" (VStr (Utils.mapPh v)).

(** [state.section.field], as the views read it. *)
Definition field_of (h : heap) (state : val) (section field : string)
  : outcome val :=
  sec ← get h state section; get h sec field.

(** A path of the form ["section.field"] with one of the seven sections
    and a field that is not [__proto__]. *)
Definition section_path (path : string) : bool :=
  match split "." path with
  | [s; f] => bool_decide (s ∈ SECTIONS) && negb (bool_decide (f = "__proto__"))
  | _ => false
  end.

(** The paths [StepContent] and [AdvancedPanel] hand to [onSelect]. *)
Definition wizard_paths : list string :=
  [ "warp_range.mode"; "warp_range.inline_mercerize";
    "warp_range.box_oxidation"; "warp_range.ropes";
    "warp_range.ends_per_rope"; "warp_range.speed_mpm";
    "warp_range.immersion_s"; "indigo_control.reduction";
    "indigo_control.ph_window"; "indigo_control.orp_logging";
    "indigo_control.size_pickup"; "indigo_control.notes";
    "shade_finish.stack"; "shade_finish.handle_goal"; "shade_finish.desize";
    "shade_finish.options"; "etp.blocks"; "etp.logs"; "etp.color_removal";
    "etp.point_recovery"; "footprints.water_boundary"; "footprints.unit";
    "footprints.carbon_boundary"; "footprints.energy_mix_grid_pct";
    "footprints.energy_mix_thermal_pct"; "footprints.intensity_unit";
    "footprints.intensity_value"; "footprints.consumer_region";
    "safety.controls"; "safety.sanforize_chain"; "handover.items";
    "warp_range.notes"; "shade_finish.adv"; "etp.doc"; "footprints.notes";
    "safety.sop"; "handover.manifest" ].

End Wizard.

(* ===================================================================== *)
(** ** The autosave effect *)
(* ===================================================================== *)

Module Autosave.
Section Scheduler.

(** What a write puts into the storage slot: the document of the render
    whose effect set the timer. *)
Context {Doc : Type}.

(** A timer set by [window.setTimeout]: its id, the time it is due, and
    the document its callback writes. *)
Record timer := { tid : positive; due : Z; payload : Doc }.

(** The browser's timers and clock, the [saveTimer] ref, and the writes
    to the storage slot so far, each with its time. *)
Record scheduler := {
  clock : Z;
  timers : list timer;
  next_id : positive;
  saveTimer : option positive;
  storage : list (Z * Doc)
}.

Definition quiet_period : Z := 500.

(** Before the first effect runs, at time [t0]: no timer, nothing
    written. *)
Definition init (t0 : Z) : scheduler :=
  {| clock := t0; timers := []; next_id := 1%positive;
     saveTimer := None; storage := [] |}.

(** [window.clearTimeout(id)]. *)
Definition clearTimeout (id : positive) (s : scheduler) : scheduler :=
  {| clock := clock s;
     timers := filter (fun x => tid x <> id) (timers s);
     next_id := next_id s; saveTimer := saveTimer s; storage := storage s |}.

(** [saveTimer.current = window.setTimeout(write d, delay)]. *)
Definition setTimeout (d : Doc) (delay : Z) (s : scheduler) : scheduler :=
  {| clock := clock s;
     timers := timers s ++ [ {| tid := next_id s; due := clock s + delay;
                                payload := d |} ];
     next_id := Pos.succ (next_id s);
     saveTimer := Some (next_id s); storage := storage s |}.

(** [if (saveTimer.current) window.clearTimeout(saveTimer.current)]: a
    timer id is a positive number, so the test is on the ref being set. *)
Definition clear_saved (s : scheduler) : scheduler :=
  match saveTimer s with
  | Some id => clearTimeout id s
  | None => s
  end.

(** The body of the effect for the document [d], and its cleanup. *)
Definition effect (d : Doc) (s : scheduler) : scheduler :=
  setTimeout d quiet_period (clear_saved s).

Definition cleanup (s : scheduler) : scheduler := clear_saved s.

(** Timers fire in the order of their due time, then of their id. *)
Definition fires_before (x y : timer) : bool :=
  (due x <? due y) || ((due x =? due y) && (tid x <? tid y)%positive).

Fixpoint insert_timer (x : timer) (l : list timer) : list timer :=
  match l with
  | [] => [x]
  | y :: r => if fires_before x y then x :: l else y :: insert_timer x r
  end.

Definition sort_timers (l : list timer) : list timer :=
  foldr insert_timer [] l.

(** Time passes until [t]: every timer due by then fires, writing its
    document at its due time. *)
Definition advance (t : Z) (s : scheduler) : scheduler :=
  let fired := sort_timers (filter (fun x => due x <= t) (timers s)) in
  {| clock := Z.max (clock s) t;
     timers := filter (fun x => ~ due x <= t) (timers s);
     next_id := next_id s; saveTimer := saveTimer s;
     storage := storage s ++ map (fun x => (due x, payload x)) fired |}.

(** What happens to the component: the document changes (React runs the
    cleanup of the previous effect, then the effect), or it unmounts (the
    cleanup runs). *)
Inductive event : Type :=
  | Change (d : Doc)
  | Unmount.

Definition handle (e : event) (s : scheduler) : scheduler :=
  match e with
  | Change d => effect d (cleanup s)
  | Unmount => cleanup s
  end.

(** Events with the time they happen at. *)
Definition run (evs : list (Z * event)) (s : scheduler) : scheduler :=
  foldl (fun s '(t, e) => handle e (advance t s)) s evs.


(** At most the timer that [saveTimer] names is pending. *)
Definition tidy (s : scheduler) : Prop :=
  timers s = [] \/ exists tm, timers s = [tm] /\ saveTimer s = Some (tid tm).

End Scheduler.
Arguments timer Doc : clear implicits.
Arguments scheduler Doc : clear implicits.
Arguments event Doc : clear implicits.
End Autosave.

(* ===================================================================== *)
(** ** The views: header, rail, palette, accordions *)
(* ===================================================================== *)

Module Views.
Import Nav.

(** The header shows [STEPS.find(s => s.key === step)?.label] and
    [Step {findIndex + 1} of {STEPS.length}]. *)
Definition step_label (step : StepKey) : option string :=
  label <$> List.find (is_step step) STEPS.

Definition step_number (step : StepKey) : Z :=
  findIndex (is_step step) STEPS + 1.

(** A rail button: [setStep(s.key)]. *)
Definition rail_click (k : StepKey) (n : NavigationState) : NavigationState :=
  setStep k n.

(** A palette item: [setStep(s.key); paletteRef.current?.close()]. *)
Definition palette_pick (k : StepKey) (n : NavigationState) : NavigationState :=
  {| step := k; advancedOpen := advancedOpen n;
     openAccordion := openAccordion n; whyOpen := whyOpen n;
     paletteOpen := false |}.

(** The accordion of a step: [open={openAccordion === key}] and
    [setOpenAccordion(openAccordion === key ? null : key)]. *)
Definition accordion_open (k : string) (n : NavigationState) : bool :=
  bool_decide (openAccordion n = Some k).

Definition accordion_toggle (k : string) (n : NavigationState)
  : NavigationState :=
  {| step := step n; advancedOpen := advancedOpen n;
     openAccordion := if accordion_open k n then None else Some k;
     whyOpen := whyOpen n; paletteOpen := paletteOpen n |}.

(** The steps whose content has an accordion, with the key each uses. *)
Definition accordion_key (s : StepKey) : option string :=
  match s with
  | warp => Some "warp"
  | indigo => Some "indigo"
  | shade => Some "shade"
  | etp => Some "etp"
  | footprints => Some "footprints"
  | safety | handover => None
  end.

End Views.

(* ===================================================================== *)
(** ** Percentages: [clampPct] *)
(* ===================================================================== *)

Module Percent.
Import Num Store Utils.

(** The value of a finite number on the scale [10^e0], for [e0] not above
    its exponent. *)
Definition scaled (n : number) (e0 : Z) : Z :=
  match n with
  | Decimal neg m e =>
      let v := Z.of_N m * 10 ^ (e - e0) in if neg then - v else v
  | _ => 0
  end.

Definition exponent_of (n : number) : Z :=
  match n with
  | Decimal _ _ e => e
  | _ => 0
  end.

(** [a < b] on numbers; [NaN] is below and above nothing, the two zeros
    are equal. *)
Definition num_lt (a b : number) : bool :=
  match a, b with
  | NaN, _ | _, NaN => false
  | Infinity true, Infinity true => false
  | Infinity true, _ => true
  | _, Infinity true => false
  | Infinity false, _ => false
  | _, Infinity false => true
  | Decimal _ _ ea, Decimal _ _ eb =>
      let e0 := Z.min ea eb in scaled a e0 <? scaled b e0
  end.

Definition is_neg_zero (n : number) : bool :=
  match n with
  | Decimal true m _ => (m =? 0)%N
  | _ => false
  end.

(** [Math.min(a, b)] and [Math.max(a, b)]: [NaN] if an argument is;
    of the two zeros the minimum is [-0] and the maximum [+0]. *)
Definition Math_min (a b : number) : number :=
  if is_NaN a || is_NaN b then NaN
  else if num_lt a b then a
  else if num_lt b a then b
  else if is_neg_zero a then a else b.

Definition Math_max (a b : number) : number :=
  if is_NaN a || is_NaN b then NaN
  else if num_lt a b then b
  else if num_lt b a then a
  else if is_neg_zero a then b else a.

Definition zero : number := Decimal false 0 0.
Definition hundred : number := Decimal false 100 0.

(** [clampPct]:
    [typeof n === "number" ? Math.max(0, Math.min(100, n)) : undefined]. *)
Definition clampPct (n : val) : val :=
  match n with
  | VNum x => VNum (Math_max zero (Math_min hundred x))
  | _ => VUndef
  end.

(** What the percentage fields store: [clampPct(toNum(v))]. *)
Definition pct_value (v : string) : val := clampPct (toNum v).

(** The number lies in the closed interval from 0 to 100. *)
Definition in_range (n : number) : bool :=
  negb (is_NaN n) && negb (num_lt n zero) && negb (num_lt hundred n).

End Percent.

(* ===================================================================== *)
(** ** The autosave effect over a run of changes *)
(* ===================================================================== *)

Module Debounce.
Import Autosave.
Section Runs.
Context {Doc : Type}.





End Runs.
End Debounce.

(* ===================================================================== *)
(** ** The two effects of the component, from mount to unmount *)
(* ===================================================================== *)

Module Lifecycle.
Import Store Autosave.

(** [window.removeEventListener(type, listener)]: both arguments are
    required, and a call with fewer throws a [TypeError]. *)
Definition removeEventListener (args : list val) : outcome unit :=
  match args with
  | _ :: _ :: _ => Ret tt
  | _ => Throw
  end.

(** The cleanup of the keyboard effect:
    [window.removeEventListener("keydown, onKey")], with the one argument
    ["keydown, onKey"]. *)
Definition keyboard_cleanup : outcome unit :=
  removeEventListener [VStr "keydown, onKey"].

Section Component.
Context {Doc : Type}.

(** The component: whether it is mounted, and the timers and the storage
    slot as its autosave effect left them. *)
Record component := { mounted : bool; effects : scheduler Doc }.

(** The first render, at [t0] with the document [d]: the autosave effect
    runs (and the keyboard effect installs its listener). *)
Definition mount (t0 : Z) (d : Doc) : component :=
  {| mounted := true; effects := effect d (init t0) |}.

(** A render after the mount: [state] changed to [d], or [step] changed. *)
Inductive commit : Type :=
  | SetState (d : Doc)
  | SetStep.

(** What React does after such a render.  The autosave effect depends on
    [state], the keyboard effect on [step] and [state]: the cleanups of
    the effects whose dependencies changed run, then those effects.  An
    error thrown by a cleanup is caught, and as the tree has no error
    boundary React then unmounts the root, which runs the cleanup of
    every effect. *)
Definition apply_commit (c : commit) (w : component) : component :=
  if mounted w then
    let s1 :=
      match c with
      | SetState d => handle (Change d) (effects w)
      | SetStep => effects w
      end in
    match keyboard_cleanup with
    | Ret _ => {| mounted := true; effects := s1 |}
    | _ => {| mounted := false; effects := handle Unmount s1 |}
    end
  else w.

(** Time passes, for the timers, whether the component is mounted or
    not. *)
Definition wait (t : Z) (w : component) : component :=
  {| mounted := mounted w; effects := advance t (effects w) |}.

(** Renders with the time they happen at. *)
Definition live (evs : list (Z * commit)) (w : component) : component :=
  foldl (fun w '(t, c) => apply_commit c (wait t w)) w evs.

End Component.
Arguments component Doc : clear implicits.
Arguments commit Doc : clear implicits.
End Lifecycle.

(* ===================================================================== *)
(** ** Values that are not objects *)
(* ===================================================================== *)

Module Prim.
Import Store.

(** A boolean, a number or a string: a value that is neither nullish nor
    an object. *)
Definition primitive (v : val) : bool :=
  match v with
  | VBool _ | VNum _ | VStr _ => true
  | _ => false
  end.

End Prim.

(* ===================================================================== *)
(** ** A stored snapshot as the document *)
(* ===================================================================== *)

Module Startup.
Import Nav Store Wizard.

(** The two loops of [build], by name. *)
Definition build_items : list json -> heap -> heap * list val :=
  fix items_of (l : list json) (h : heap) : heap * list val :=
    match l with
    | [] => (h, [])
    | x :: r =>
        let '(h1, v) := build x h in
        let '(h2, vs) := items_of r h1 in
        (h2, v :: vs)
    end.

Definition build_members
  : list (string * json) -> heap -> heap * gmap string val :=
  fix members_of (l : list (string * json)) (h : heap)
      : heap * gmap string val :=
    match l with
    | [] => (h, ∅)
    | (k, x) :: r =>
        let '(h1, v) := build x h in
        let '(h2, m) := members_of r h1 in
        (h2, match m !! k with Some _ => m | None => <[k := v]> m end)
    end.

(** The member of a JSON object that [JSON.parse] keeps for the name [k]:
    the last one of that name. *)
Fixpoint last_member (k : string) (l : list (string * json)) : option json :=
  match l with
  | [] => None
  | (k', x) :: r =>
      match last_member k r with
      | Some y => Some y
      | None => if decide (k' = k) then Some x else None
      end
  end.

Definition is_JObj (j : json) : bool :=
  match j with
  | JObj _ => true
  | _ => false
  end.

(** The section of the document that the view of a step reads, and the
    first field of it that [StepContent] reads when it renders the step. *)
Definition section_of (step : StepKey) : string :=
  match step with
  | warp => "warp_range"
  | indigo => "indigo_control"
  | shade => "shade_finish"
  | etp => "etp"
  | footprints => "footprints"
  | safety => "safety"
  | handover => "handover"
  end.

Definition first_field (step : StepKey) : string :=
  match step with
  | warp => "mode"
  | indigo => "reduction"
  | shade => "stack"
  | etp => "blocks"
  | footprints => "water_boundary"
  | safety => "controls"
  | handover => "items"
  end.

(** The first read of [StepContent] for a step: [state.section.field]. *)
Definition StepContent_first_read (step : StepKey) (h : heap) (state : val)
  : outcome val :=
  field_of h state (section_of step) (first_field step).

(** [x || ...] looks at [x] being falsy. *)
Definition falsy (v : val) : bool :=
  match v with
  | VUndef | VNull => true
  | VBool b => negb b
  | VNum n => Num.is_zero n || Num.is_NaN n
  | VStr s => bool_decide (s = estr)
  | VRef _ => false
  end.

(** [x || ""]. *)
Definition or_empty (v : val) : val := if falsy v then VStr estr else v.

(** [state.section?.field]. *)
Definition optional_field (h : heap) (state : val) (section field : string)
  : outcome val :=
  sec ← get h state section;
  if nullish sec then Ret VUndef else get h sec field.

(** The field of [AdvancedPanel] for a step. *)
Definition advanced_field (step : StepKey) : string :=
  match step with
  | warp => "notes"
  | indigo => "notes"
  | shade => "adv"
  | etp => "doc"
  | footprints => "notes"
  | safety => "sop"
  | handover => "manifest"
  end.

(** The value [AdvancedPanel] shows for a step:
    [(state as any).section?.field || ""], and for the indigo step
    [state.indigo_control.notes || ""], with no [?.]. *)
Definition AdvancedPanel_value (step : StepKey) (h : heap) (state : val)
  : outcome val :=
  x ← match step with
      | indigo => field_of h state (section_of step) (advanced_field step)
      | _ => optional_field h state (section_of step) (advanced_field step)
      end;
  Ret (or_empty x).

(** The path [AdvancedPanel] writes for a step. *)
Definition advanced_path (step : StepKey) : string :=
  path_of (section_of step) (advanced_field step).

End Startup.

(* ===================================================================== *)
(** * Properties *)
(* ===================================================================== *)

(** ** Navigation *)

Section NavigationFacts.
Import Nav Platform.

Lemma next_spec (s : StepKey) :
  next s = match s with
           | warp => indigo | indigo => shade | shade => etp
           | etp => footprints | footprints => safety
           | safety => handover | handover => handover
           end.
Proof. destruct s; reflexivity. Qed.

Lemma back_spec (s : StepKey) :
  back s = match s with
           | warp => warp | indigo => warp | shade => indigo
           | etp => shade | footprints => etp
           | safety => footprints | handover => safety
           end.
Proof. destruct s; reflexivity. Qed.

(** The handler on a key pressed inside the container: Tab is [next] of
    the step it closes over, Shift+Tab is [back], both with the default
    action suppressed. *)
Lemma onKey_tab (s : StepKey) (shift : bool) (n : NavigationState) :
  onKey s (key_event "Tab" shift) n
  = (setStep ((if shift then back else next) s) n, [PreventDefault]).
Proof. destruct shift; reflexivity. Qed.

(** C3, as stated, fails at the last step: [next] stays on [handover]
    and [back] then moves to [safety]. *)
Lemma next_then_back_at_last_step :
  back (next last_step) = safety /\ back (next last_step) <> last_step.
Proof. split; [reflexivity | discriminate]. Qed.

(** C3 (amended): [back] at the first step and [next] at the last step
    leave the step unchanged, and so do the Shift+Tab and Tab branches of
    the handler of the current render; from every step other than the
    last, [next] then [back] returns to that step. *)
Theorem navigation_bounds (s : StepKey) (n : NavigationState) :
  back first_step = first_step /\
  next last_step = last_step /\
  (step n = first_step ->
     step (fst (onKey (step n) (key_event "Tab" true) n)) = first_step) /\
  (step n = last_step ->
     step (fst (onKey (step n) (key_event "Tab" false) n)) = last_step) /\
  (s <> last_step -> back (next s) = s).
Proof.
  repeat split.
  - intros Hn. rewrite onKey_tab. simpl. now rewrite Hn.
  - intros Hn. rewrite onKey_tab. simpl. now rewrite Hn.
  - intros Hs. rewrite next_spec. destruct s; try reflexivity.
    now contradiction Hs.
Qed.

Lemma navigation_bounds_witness :
  back (next etp) = etp /\
  step (fst (onKey handover (key_event "Tab" false)
               {| step := handover; advancedOpen := false;
                  openAccordion := None; whyOpen := false;
                  paletteOpen := false |})) = handover.
Proof.
  pose proof (navigation_bounds etp
    {| step := handover; advancedOpen := false; openAccordion := None;
       whyOpen := false; paletteOpen := false |}) as (_ & _ & _ & Hk & Hs).
  split; [apply Hs; discriminate | apply Hk; reflexivity].
Defined.

(** The Escape branch of the handler: it resets the three state cells,
    does nothing to the dialog and does not call [preventDefault()]. *)
Lemma onKey_escape (s : StepKey) (e : KeyboardEvent) (n : NavigationState) :
  within e = true ->
  ekey e = "Escape" ->
  onKey s e n
  = ({| step := step n; advancedOpen := false; openAccordion := None;
        whyOpen := false; paletteOpen := paletteOpen n |}, []).
Proof.
  destruct e as [k c m sh w]; simpl. intros -> ->.
  unfold onKey; simpl. destruct c, m; reflexivity.
Qed.

(** C8: Escape pressed inside the container closes every overlay and
    leaves the step as it is, whatever step the handler closes over and
    whatever modifiers are held: the handler resets the advanced panel,
    the accordion and the why-panel, and since it does not suppress the
    default action of the key, the browser closes the palette dialog. *)
Theorem escape_closes_overlays
    (s : StepKey) (e : KeyboardEvent) (n : NavigationState) :
  within e = true ->
  ekey e = "Escape" ->
  keydown s e n
  = ({| step := step n; advancedOpen := false; openAccordion := None;
        whyOpen := false; paletteOpen := false |}, []).
Proof.
  intros Hw He. unfold keydown. rewrite (onKey_escape s e n Hw He).
  unfold default_action. rewrite He.
  rewrite bool_decide_eq_true_2 by reflexivity.
  rewrite bool_decide_eq_false_2 by apply not_elem_of_nil.
  cbn [negb andb paletteOpen]. now destruct (paletteOpen n).
Qed.

Lemma escape_closes_overlays_witness :
  fst (keydown shade (key_event "Escape" false)
         {| step := shade; advancedOpen := true; openAccordion := Some "shade";
            whyOpen := true; paletteOpen := true |})
  = {| step := shade; advancedOpen := false; openAccordion := None;
       whyOpen := false; paletteOpen := false |}.
Proof.
  rewrite (escape_closes_overlays shade (key_event "Escape" false)
             {| step := shade; advancedOpen := true;
                openAccordion := Some "shade"; whyOpen := true;
                paletteOpen := true |});
    reflexivity.
Defined.

End NavigationFacts.

(** ** The helpers of the form fields *)

Section UtilsFacts.
Import Store Utils.

Lemma startsWith_exclusive (v p q : string) :
  String.length p = String.length q -> p <> q ->
  startsWith v p = true -> startsWith v q = false.
Proof.
  unfold startsWith. intros Hlen Hne Hp.
  destruct (String.prefix q v) eqn:Hq; [|reflexivity].
  apply String.prefix_correct in Hp, Hq. congruence.
Qed.

(* Set *)
Lemma Set_add_elem s o x : x ∈ Set_add s o <-> x ∈ s \/ x = o.
Proof.
  unfold Set_add, Set_has. case_bool_decide.
  - split; [auto | intros [?| ->]; auto].
  - rewrite elem_of_app, list_elem_of_singleton. tauto.
Qed.

Lemma Set_add_NoDup s o : NoDup s -> NoDup (Set_add s o).
Proof.
  unfold Set_add, Set_has. intros Hs. case_bool_decide; [easy|].
  apply NoDup_app. repeat split; [easy | | apply NoDup_singleton].
  intros x Hx ->%list_elem_of_singleton. contradiction.
Qed.

Lemma foldl_Set_add_elem values acc x :
  x ∈ foldl Set_add acc values <-> x ∈ acc \/ x ∈ values.
Proof.
  revert acc. induction values as [|v values IH]; intros acc; simpl.
  - rewrite elem_of_nil. tauto.
  - rewrite IH, Set_add_elem, elem_of_cons. tauto.
Qed.

Lemma foldl_Set_add_NoDup values acc :
  NoDup acc -> NoDup (foldl Set_add acc values).
Proof.
  revert acc. induction values as [|v values IH]; intros acc Hacc; simpl; [easy|].
  apply IH, Set_add_NoDup, Hacc.
Qed.

Lemma foldl_Set_add_id values acc :
  NoDup (acc ++ values) -> foldl Set_add acc values = acc ++ values.
Proof.
  revert acc. induction values as [|v values IH]; intros acc Hnd; simpl.
  - now rewrite app_nil_r.
  - assert (Hv : v ∉ acc).
    { apply NoDup_app in Hnd as (_ & Hd & _). intros Hin.
      apply (Hd v Hin). left. }
    unfold Set_add at 2, Set_has. rewrite bool_decide_eq_false_2 by exact Hv.
    rewrite IH; rewrite <- app_assoc; [reflexivity | exact Hnd].
Qed.

Lemma new_Set_elem values x : x ∈ new_Set values <-> x ∈ values.
Proof.
  unfold new_Set. rewrite foldl_Set_add_elem, elem_of_nil. tauto.
Qed.

Lemma new_Set_NoDup values : NoDup (new_Set values).
Proof. apply foldl_Set_add_NoDup, NoDup_nil_2. Qed.

Lemma new_Set_id values : NoDup values -> new_Set values = values.
Proof. intros H. unfold new_Set. now rewrite foldl_Set_add_id. Qed.

Lemma Set_delete_elem s o x : x ∈ Set_delete s o <-> x ∈ s /\ x <> o.
Proof. unfold Set_delete. rewrite list_elem_of_filter. tauto. Qed.

Lemma Set_delete_idem s o : Set_delete (Set_delete s o) o = Set_delete s o.
Proof.
  unfold Set_delete. induction s as [|y s IH]; [reflexivity|].
  rewrite filter_cons. case_decide as Hy; [|exact IH].
  rewrite filter_cons, decide_True by exact Hy. now rewrite IH.
Qed.

Lemma toggle_present values o :
  o ∈ values -> toggle values o = Set_delete (new_Set values) o.
Proof.
  intros Ho. unfold toggle, Array_from, Set_has.
  now rewrite bool_decide_eq_true_2 by (now apply new_Set_elem).
Qed.

Lemma toggle_absent values o :
  o ∉ values -> toggle values o = new_Set values ++ [o].
Proof.
  intros Ho. unfold toggle, Array_from, Set_add, Set_has.
  now rewrite !bool_decide_eq_false_2 by (now rewrite new_Set_elem).
Qed.

Lemma toggle_elem values o x :
  x ∈ toggle values o <->
  (o ∈ values /\ x ∈ values /\ x <> o) \/ (~ o ∈ values /\ (x ∈ values \/ x = o)).
Proof.
  destruct (decide (o ∈ values)) as [Ho|Ho].
  - rewrite toggle_present, Set_delete_elem, new_Set_elem by exact Ho. tauto.
  - rewrite toggle_absent, elem_of_app, list_elem_of_singleton, new_Set_elem
      by exact Ho. tauto.
Qed.

(** C6: [toggle] removes the option when it is selected and appends it at
    the end when it is not; the other elements keep their order; toggling
    twice gives back the same set of selected options.  The list goes
    through a [Set], so a repeated element of [values] is kept once (at
    its first place); a list without repetition goes through unchanged. *)
Theorem toggle_spec (values : list string) (o : string) :
  (o ∈ values ->
     toggle values o = filter (fun x => x <> o) (new_Set values)) /\
  (~ o ∈ values -> toggle values o = new_Set values ++ [o]) /\
  filter (fun x => x <> o) (toggle values o)
    = filter (fun x => x <> o) (new_Set values) /\
  (forall x, x ∈ toggle (toggle values o) o <-> x ∈ values) /\
  (NoDup values ->
     new_Set values = values /\
     (o ∈ values -> toggle values o = filter (fun x => x <> o) values) /\
     (~ o ∈ values -> toggle values o = values ++ [o]) /\
     filter (fun x => x <> o) (toggle values o)
       = filter (fun x => x <> o) values).
Proof.
  assert (Hkeep : filter (fun x => x <> o) (toggle values o)
                  = filter (fun x => x <> o) (new_Set values)).
  { destruct (decide (o ∈ values)) as [Ho|Ho].
    - rewrite toggle_present by exact Ho. apply Set_delete_idem.
    - rewrite toggle_absent by exact Ho.
      rewrite filter_app, filter_cons, decide_False by (now intros H).
      now rewrite filter_nil, app_nil_r. }
  split; [apply toggle_present|].
  split; [apply toggle_absent|].
  split; [exact Hkeep|].
  split.
  - intros x. rewrite toggle_elem, !toggle_elem.
    destruct (decide (x = o)) as [->|Hx]; destruct (decide (o ∈ values)); tauto.
  - intros Hnd.
    pose proof (toggle_present values o) as Hp.
    pose proof (toggle_absent values o) as Ha.
    rewrite (new_Set_id values Hnd) in Hp, Ha, Hkeep.
    repeat split; [now apply new_Set_id | exact Hp | exact Ha | exact Hkeep].
Qed.

Lemma toggle_spec_witness :
  toggle ["Physical"; "Chemical"; "ZLD"] "Chemical" = ["Physical"; "ZLD"] /\
  toggle ["Physical"; "ZLD"] "Chemical" = ["Physical"; "ZLD"; "Chemical"].
Proof.
  split.
  - destruct (toggle_spec ["Physical"; "Chemical"; "ZLD"] "Chemical")
      as (_ & _ & _ & _ & H).
    destruct H as (_ & H & _); [compute_done|].
    rewrite H; [reflexivity | compute_done].
  - destruct (toggle_spec ["Physical"; "ZLD"] "Chemical")
      as (_ & _ & _ & _ & H).
    destruct H as (_ & _ & H & _); [compute_done|].
    rewrite H; [reflexivity | compute_done].
Defined.

End UtilsFacts.

(** ** Rounding to binary64 *)

Section RoundingFacts.
Import Num.

Lemma half_even_exact num den :
  0 < den -> num mod den = 0 -> half_even num den = num / den.
Proof.
  intros Hd Hr. unfold half_even. rewrite Hr.
  destruct (Z.compare_spec (2 * 0) den); (lia || reflexivity).
Qed.

Lemma half_even_ge num den : num / den <= half_even num den.
Proof.
  unfold half_even.
  destruct (2 * (num mod den) ?= den); [|lia..].
  destruct (Z.even (num / den)); lia.
Qed.

Lemma half_even_zero num den :
  0 <= num -> 0 < den -> half_even num den = 0 <-> 2 * num <= den.
Proof.
  intros Hn Hd. unfold half_even.
  pose proof (Z.div_pos num den Hn Hd) as Hq.
  pose proof (Z.mod_pos_bound num den Hd) as Hr.
  pose proof (Z.div_mod num den ltac:(lia)) as Hdm.
  set (m := num / den) in *. set (r := num mod den) in *.
  destruct (Z.compare_spec (2 * r) den) as [He | Hl | Hg].
  - destruct (Z.even m) eqn:Hev.
    + split; [intros ->; lia|]. intros H'. nia.
    + split; [lia|]. intros H'. assert (m = 0) as -> by nia. discriminate Hev.
  - split; [intros ->; lia|]. intros H'. nia.
  - split; [lia|]. intros H'. nia.
Qed.

Lemma numerator_nonneg m e : 0 <= numerator m e.
Proof.
  unfold numerator. destruct (Z.leb_spec 0 e); [|lia].
  apply Z.mul_nonneg_nonneg; [lia|]. apply Z.pow_nonneg. lia.
Qed.

Lemma numerator_pos m e : (0 < m)%N -> 0 < numerator m e.
Proof.
  intros Hm. unfold numerator. destruct (Z.leb_spec 0 e); [|lia].
  apply Z.mul_pos_pos; [lia|]. apply Z.pow_pos_nonneg; lia.
Qed.

Lemma numerator_zero e : numerator 0 e = 0.
Proof. unfold numerator. now destruct (0 <=? e). Qed.

Lemma denominator_pos e : 0 < denominator e.
Proof.
  unfold denominator. destruct (Z.leb_spec 0 e); [lia|].
  apply Z.pow_pos_nonneg; lia.
Qed.

(** Where the step is more than a unit, 53 bits are kept. *)
Lemma round_units_bits num q :
  0 < q -> 0 < Z.log2 (num / q) - 52 ->
  2 ^ 52 <= num / (q * 2 ^ (Z.log2 (num / q) - 52)).
Proof.
  intros Hq Hk. set (N := num / q) in *.
  assert (HN : 0 < N).
  { destruct (Z.ltb_spec 0 N); [assumption|].
    rewrite Z.log2_nonpos in Hk by assumption. lia. }
  rewrite <- Z.div_div by (lia || (apply Z.pow_pos_nonneg; lia)). fold N.
  apply Z.div_le_lower_bound; [apply Z.pow_pos_nonneg; lia|].
  rewrite <- Z.pow_add_r by lia.
  replace (Z.log2 N - 52 + 52) with (Z.log2 N) by lia.
  apply (Z.log2_spec N HN).
Qed.

Lemma round_units_nonneg num q :
  0 <= num -> 0 < q -> 0 <= fst (round_units num q).
Proof.
  intros Hn Hq. unfold round_units. cbn [fst].
  set (k := Z.max 0 _).
  assert (0 < 2 ^ k) by (apply Z.pow_pos_nonneg; lia).
  apply Z.mul_nonneg_nonneg; [|lia].
  etransitivity; [|apply half_even_ge]. apply Z.div_pos; nia.
Qed.

(** The count of units is zero exactly for a value of at most half a
    unit. *)
Lemma round_units_zero num q :
  0 <= num -> 0 < q -> fst (round_units num q) = 0 <-> 2 * num <= q.
Proof.
  intros Hn Hq. unfold round_units. cbn [fst].
  destruct (Z.max_spec 0 (Z.log2 (num / q) - 52)) as [[Hk ->] | [Hk ->]].
  - pose proof (round_units_bits num q Hq Hk) as Hb.
    set (k := Z.log2 (num / q) - 52) in *.
    assert (H2k : 0 < 2 ^ k) by (apply Z.pow_pos_nonneg; lia).
    pose proof (half_even_ge num (q * 2 ^ k)) as Hge.
    assert (H52 : 0 < 2 ^ 52) by (apply Z.pow_pos_nonneg; lia).
    split; [intros H'; nia|]. intros H'. exfalso.
    assert (num / (q * 2 ^ k) = 0) by (apply Z.div_small; nia). lia.
  - change (2 ^ 0) with 1. rewrite !Z.mul_1_r.
    now apply half_even_zero.
Qed.

(** A whole number below [2^53] is a binary64 number. *)
Lemma round_units_small a :
  0 <= a < 2 ^ 53 -> round_units (a * 2 ^ 1074) 1 = (a * 2 ^ 1074, true).
Proof.
  intros Ha.
  assert (H0 : 0 < 2 ^ 1074) by (apply Z.pow_pos_nonneg; lia).
  destruct (Z.eq_dec a 0) as [-> | Hne];
    [|unfold round_units; rewrite Z.div_1_r, !Z.mul_1_l].
  - vm_compute. reflexivity.
  - rewrite Z.log2_mul_pow2 by lia.
    assert (Hl : 0 <= Z.log2 a < 53).
    { split; [apply Z.log2_nonneg|]. apply Z.log2_lt_pow2; lia. }
    rewrite Z.max_r by lia.
    set (k := 1074 + Z.log2 a - 52).
    assert (Hsplit : a * 2 ^ 1074 = a * 2 ^ (1074 - k) * 2 ^ k).
    { rewrite <- Z.mul_assoc, <- Z.pow_add_r by (unfold k; lia).
      now replace (1074 - k + k) with 1074 by lia. }
    assert (H2k : 0 < 2 ^ k) by (apply Z.pow_pos_nonneg; unfold k; lia).
    assert (Hmod : (a * 2 ^ 1074) mod 2 ^ k = 0).
    { rewrite Hsplit. apply Z.mod_mul. lia. }
    rewrite Hmod, (half_even_exact _ _ H2k Hmod).
    rewrite Hsplit at 1. rewrite Z.div_mul by lia. now rewrite <- Hsplit.
Qed.

(** A whole number from [2^j] on, [j] at least 53, stays there. *)
Lemma round_units_large num j :
  53 <= j -> 2 ^ j <= num -> 2 ^ j <= fst (round_units num 1).
Proof.
  intros Hj Hn. unfold round_units. cbn [fst]. rewrite Z.div_1_r, !Z.mul_1_l.
  assert (Hpos : 0 < num).
  { assert (0 < 2 ^ j) by (apply Z.pow_pos_nonneg; lia). lia. }
  assert (Hl : j <= Z.log2 num) by (apply Z.log2_le_pow2; assumption).
  assert (Hk : 0 < Z.log2 (num / 1) - 52) by (rewrite Z.div_1_r; lia).
  pose proof (round_units_bits num 1 ltac:(lia) Hk) as Hb.
  rewrite Z.div_1_r, Z.mul_1_l in Hb.
  rewrite Z.max_r by lia.
  set (k := Z.log2 num - 52) in *.
  pose proof (half_even_ge num (2 ^ k)) as Hge.
  assert (H2k : 0 < 2 ^ k) by (apply Z.pow_pos_nonneg; unfold k; lia).
  assert (Hjk : 2 ^ j <= 2 ^ 52 * 2 ^ k).
  { rewrite <- Z.pow_add_r by (unfold k; lia).
    apply Z.pow_le_mono_r; unfold k; lia. }
  assert (H52 : 0 < 2 ^ 52) by (apply Z.pow_pos_nonneg; lia).
  nia.
Qed.

Lemma round_is_NaN n : is_NaN (RoundMVResult n) = is_NaN n.
Proof.
  destruct n as [| neg | neg m e]; try reflexivity.
  unfold RoundMVResult. destruct (round_units _ _) as [units exact].
  destruct (2 ^ 2098 <=? units); [reflexivity|]. now destruct exact.
Qed.

(** The rounded number is zero exactly when the value is zero or
    underflows. *)
Lemma round_is_zero neg m e :
  is_zero (RoundMVResult (Decimal neg m e)) = true
  <-> m = 0%N \/ underflows (Decimal neg m e) = true.
Proof.
  unfold RoundMVResult, underflows.
  pose proof (denominator_pos e) as Hq.
  pose proof (numerator_nonneg m e) as Hp.
  assert (H0 : 0 < 2 ^ 1074) by (apply Z.pow_pos_nonneg; lia).
  assert (H5 : 0 < 5 ^ 1074) by (apply Z.pow_pos_nonneg; lia).
  assert (Hbig : 0 < 2 ^ 2098) by (apply Z.pow_pos_nonneg; lia).
  assert (H75 : numerator m e * 2 ^ 1075 = 2 * (numerator m e * 2 ^ 1074)).
  { change 1075 with (1 + 1074). rewrite Z.pow_add_r by lia.
    change (2 ^ 1) with 2. lia. }
  set (num := numerator m e * 2 ^ 1074) in *.
  assert (Hnum : 0 <= num) by (unfold num; nia).
  pose proof (round_units_nonneg num _ Hnum Hq) as Hu0.
  pose proof (round_units_zero num _ Hnum Hq) as Huz.
  assert (Hex : snd (round_units num (denominator e)) = true ->
                m <> 0%N -> fst (round_units num (denominator e)) <> 0).
  { unfold round_units. cbn [fst snd]. intros Hmod%Z.eqb_eq Hm.
    set (k := Z.max 0 _) in *.
    assert (H2k : 0 < 2 ^ k) by (apply Z.pow_pos_nonneg; unfold k; lia).
    rewrite half_even_exact by (assumption || nia).
    pose proof (Z.div_mod num (denominator e * 2 ^ k) ltac:(nia)) as Hdm.
    rewrite Hmod in Hdm.
    assert (0 < num).
    { unfold num. pose proof (numerator_pos m e ltac:(lia)). nia. }
    nia. }
  destruct (round_units num (denominator e)) as [units exact].
  cbn [fst snd] in *. rewrite H75.
  destruct (N.eq_dec m 0%N) as [-> | Hm].
  - assert (Hz : num = 0) by (unfold num; now rewrite numerator_zero).
    assert (units = 0) as -> by (apply Huz; lia).
    destruct (Z.leb_spec (2 ^ 2098) 0); [lia|].
    destruct exact; simpl; tauto.
  - assert (Hm' : (0 <? m)%N = true) by (apply N.ltb_lt; lia).
    rewrite Hm'. cbn [andb].
    destruct (Z.leb_spec (2 ^ 2098) units) as [Hov | Hov].
    + simpl. split; [discriminate|]. intros [? | Hle%Z.leb_le]; [easy|].
      assert (units = 0) by (apply Huz; lia). lia.
    + destruct exact.
      * simpl. split.
        -- intros H'%N.eqb_eq. easy.
        -- intros [? | Hle%Z.leb_le]; [easy|]. exfalso.
           apply (Hex eq_refl Hm). apply Huz. lia.
      * cbn [is_zero]. rewrite N.eqb_eq. split.
        -- intros Hz. right. apply Z.leb_le, Huz.
           assert (units * 5 ^ 1074 <= 0) by lia. nia.
        -- intros [? | Hle%Z.leb_le]; [easy|].
           assert (units = 0) as -> by (apply Huz; lia). reflexivity.
Qed.

(** A whole number below [2^53] is stored as it is written. *)
Lemma round_small_int neg m :
  Z.of_N m < 2 ^ 53 -> RoundMVResult (Decimal neg m 0) = Decimal neg m 0.
Proof.
  intros Hm. unfold RoundMVResult.
  change (numerator m 0) with (Z.of_N m * 1). change (denominator 0) with 1.
  rewrite Z.mul_1_r, round_units_small by lia.
  assert (H0 : 0 < 2 ^ 1074) by (apply Z.pow_pos_nonneg; lia).
  assert (Hb : 2 ^ 53 * 2 ^ 1074 <= 2 ^ 2098).
  { rewrite <- Z.pow_add_r by lia. apply Z.pow_le_mono_r; lia. }
  destruct (Z.leb_spec (2 ^ 2098) (Z.of_N m * 2 ^ 1074)); [nia | reflexivity].
Qed.

(** A whole number from [2^53] on is stored as a number from [2^53] on,
    of the same sign. *)
Lemma round_large_int neg m :
  2 ^ 53 <= Z.of_N m ->
  RoundMVResult (Decimal neg m 0) = Infinity neg \/
  RoundMVResult (Decimal neg m 0) = Decimal neg m 0 \/
  exists units,
    RoundMVResult (Decimal neg m 0)
    = Decimal neg (Z.to_N (units * 5 ^ 1074)) (-1074) /\
    2 ^ 53 * 2 ^ 1074 <= units.
Proof.
  intros Hm. unfold RoundMVResult.
  change (numerator m 0) with (Z.of_N m * 1). change (denominator 0) with 1.
  rewrite Z.mul_1_r.
  assert (H0 : 0 < 2 ^ 1074) by (apply Z.pow_pos_nonneg; lia).
  assert (Hn : 2 ^ 1127 <= Z.of_N m * 2 ^ 1074).
  { change 1127 with (53 + 1074). rewrite Z.pow_add_r by lia. nia. }
  pose proof (round_units_large _ 1127 ltac:(lia) Hn) as Hu.
  destruct (round_units _ _) as [units exact]. cbn [fst] in Hu.
  destruct (2 ^ 2098 <=? units); [now left|].
  destruct exact; [right; now left|].
  right. right. exists units. split; [reflexivity|].
  change 1127 with (53 + 1074) in Hu. now rewrite Z.pow_add_r in Hu by lia.
Qed.

End RoundingFacts.

Section NumberFacts.
Import Num Store Utils.

Lemma is_digit_code c :
  is_digit c = true -> (48 <= code c <= 57)%N /\ digit_val 10 c = Some (code c - 48)%N.
Proof.
  unfold is_digit, digit_val. intros H%bool_decide_eq_true.
  destruct ((48 <=? code c) && (code c <=? 57))%N eqn:E.
  - apply andb_true_iff in E as [E1%N.leb_le E2%N.leb_le].
    split; [lia|]. destruct (_ <? 10)%N eqn:E3; [reflexivity|].
    apply N.ltb_ge in E3. lia.
  - exfalso. destruct ((97 <=? code c) && (code c <=? 102))%N eqn:E2.
    + apply andb_true_iff in E2 as [E3%N.leb_le E4%N.leb_le].
      destruct (_ <? 10)%N eqn:E5; [apply N.ltb_lt in E5; lia|].
      now destruct H.
    + destruct ((65 <=? code c) && (code c <=? 70))%N eqn:E3.
      * apply andb_true_iff in E3 as [E4%N.leb_le E5%N.leb_le].
        destruct (_ <? 10)%N eqn:E6; [apply N.ltb_lt in E6; lia|].
        now destruct H.
      * now destruct H.
Qed.

Lemma take_digits_all s acc cnt :
  forallb is_digit (list_ascii_of_string s) = true ->
  take_digits 10 acc cnt s
  = (decimal_value acc s, (cnt + String.length s)%nat, estr).
Proof.
  revert acc cnt. induction s as [|c s IH]; intros acc cnt H; simpl in *.
  - now rewrite Nat.add_0_r.
  - apply andb_true_iff in H as [Hc Hs].
    destruct (is_digit_code c Hc) as [_ ->].
    rewrite IH by exact Hs. now rewrite Nat.add_succ_r.
Qed.

Lemma decimal_value_zero s acc :
  forallb is_digit (list_ascii_of_string s) = true ->
  decimal_value acc s = 0%N <-> acc = 0%N /\ all_zeros s = true.
Proof.
  unfold all_zeros.
  revert acc. induction s as [|c s IH]; intros acc H; simpl in *.
  - tauto.
  - apply andb_true_iff in H as [Hc Hs].
    destruct (is_digit_code c Hc) as [Hb _].
    rewrite IH by exact Hs. rewrite andb_true_iff, bool_decide_eq_true.
    split.
    + intros [H0 Hz]. assert (code c = 48%N) as Hc0 by lia.
      repeat split; [lia| |exact Hz].
      unfold code in Hc0. rewrite <- (ascii_N_embedding c), Hc0. reflexivity.
    + intros (-> & -> & Hz). split; [reflexivity | exact Hz].
Qed.

Lemma MV_digits s :
  all_digits s = true -> MV s = Decimal false (decimal_value 0 s) 0.
Proof.
  destruct s as [|c r]; [discriminate|]. unfold all_digits. intros H.
  pose proof (take_digits_all _ 0%N 0%nat H) as Htd.
  simpl in H. apply andb_true_iff in H as [Hc Hr].
  destruct (is_digit_code c Hc) as [Hb _].
  assert (Hd : ((48 <=? code c) && (code c <=? 57))%N = true).
  { apply andb_true_iff. split; apply N.leb_le; lia. }
  clear Hb Hc.
  assert (Hnd : non_decimal (String c r) = None).
  { unfold non_decimal. destruct r as [|c2 r2]; [now destruct c as [[] [] [] [] [] [] [] []]|].
    simpl in Hr. apply andb_true_iff in Hr as [Hc2 _].
    destruct (is_digit_code c2 Hc2) as [Hb2 _].
    replace (code c2 =? 120)%N with false by (symmetry; apply N.eqb_neq; lia).
    replace (code c2 =? 88)%N with false by (symmetry; apply N.eqb_neq; lia).
    replace (code c2 =? 111)%N with false by (symmetry; apply N.eqb_neq; lia).
    replace (code c2 =? 79)%N with false by (symmetry; apply N.eqb_neq; lia).
    replace (code c2 =? 98)%N with false by (symmetry; apply N.eqb_neq; lia).
    replace (code c2 =? 66)%N with false by (symmetry; apply N.eqb_neq; lia).
    now destruct c as [[] [] [] [] [] [] [] []]. }
  unfold MV.
  assert (Hws : skip_ws (String c r) = String c r).
  { destruct c as [[] [] [] [] [] [] [] []]; try discriminate Hd; reflexivity. }
  rewrite Hws. unfold numeric_literal. rewrite Hnd.
  assert (Hlit : match String c r with
          | String "-"%char r0 => unsigned_decimal true r0
          | String "+"%char r0 => unsigned_decimal false r0
          | _ => unsigned_decimal false (String c r)
          end = Some (Decimal false (decimal_value 0 (String c r)) 0, estr)).
  { assert (String.prefix "Infinity" (String c r) = false) as Hpre.
    { destruct c as [[] [] [] [] [] [] [] []]; try discriminate Hd; reflexivity. }
    assert (unsigned_decimal false (String c r)
            = Some (Decimal false (decimal_value 0 (String c r)) 0, estr)) as Hu.
    { unfold unsigned_decimal. rewrite Hpre, Htd. reflexivity. }
    destruct c as [[] [] [] [] [] [] [] []]; try discriminate Hd; exact Hu. }
  rewrite Hlit. reflexivity.
Qed.

End NumberFacts.

Section NumeralFacts.
Import Num Store Utils.

Lemma append_cons a s t : String a s +:+ t = String a (s +:+ t).
Proof. reflexivity. Qed.

Lemma append_nil_r s : s +:+ estr = s.
Proof. induction s as [|a s IH]; [reflexivity|]. now rewrite append_cons, IH. Qed.

Lemma is_digit_false c : is_digit c = false -> digit_val 10 c = None.
Proof.
  unfold is_digit. intros H%bool_decide_eq_false.
  destruct (digit_val 10 c); [|reflexivity]. contradiction H. eauto.
Qed.

Lemma take_digits_stop s acc cnt :
  stops s = true -> take_digits 10 acc cnt s = (acc, cnt, s).
Proof.
  destruct s as [|c s]; simpl; [reflexivity|].
  intros H%negb_true_iff%is_digit_false. now rewrite H.
Qed.

Lemma take_digits_app ds rest acc cnt :
  forallb is_digit (list_ascii_of_string ds) = true -> stops rest = true ->
  take_digits 10 acc cnt (ds +:+ rest)
  = (decimal_value acc ds, (cnt + String.length ds)%nat, rest).
Proof.
  revert acc cnt. induction ds as [|c ds IH]; intros acc cnt Hd Hr.
  - simpl. rewrite Nat.add_0_r. now apply take_digits_stop.
  - rewrite append_cons. simpl in *. apply andb_true_iff in Hd as [Hc Hd].
    destruct (is_digit_code c Hc) as [_ ->].
    rewrite IH by assumption. now rewrite Nat.add_succ_r.
Qed.

Lemma all_digits_forall ds :
  all_digits ds = true ->
  forallb is_digit (list_ascii_of_string ds) = true /\ (0 < String.length ds)%nat.
Proof. destruct ds; [discriminate|]. simpl. split; [assumption | lia]. Qed.

(** The ten digits, one by one. *)
Ltac each_digit c H :=
  let Hd := fresh "Hd" in
  assert (Hd : ((48 <=? code c) && (code c <=? 57))%N = true)
    by (destruct (is_digit_code c H) as [[? ?] _];
        apply andb_true_iff; split; apply N.leb_le; assumption);
  clear H; destruct c as [[] [] [] [] [] [] [] []]; try discriminate Hd;
  clear Hd.

Lemma exponent_part_exponent ex :
  exponent ex -> exists e, exponent_part ex = Some (e, estr).
Proof.
  intros (c & sg & ds & -> & Hc & Hsg & Hds).
  apply all_digits_forall in Hds as [Hds Hlen].
  pose proof (take_digits_app ds estr 0%N 0%nat Hds eq_refl) as Htd.
  rewrite append_nil_r in Htd.
  assert (Hgo : forall neg : bool,
    (let '(e, cnt, r2) := take_digits 10 0 0 ds in
     match cnt with
     | O => None
     | S _ => Some (if neg then - Z.of_N e else Z.of_N e, r2)
     end) = Some ((if neg then - Z.of_N (decimal_value 0 ds)
                   else Z.of_N (decimal_value 0 ds)), estr)).
  { intros neg. rewrite Htd. simpl.
    destruct (String.length ds); [lia | reflexivity]. }
  unfold exponent_part.
  assert (((code c =? 101)%N || (code c =? 69)%N) = true) as ->
    by (destruct Hc as [-> | ->]; reflexivity).
  destruct Hsg as [-> | [-> | ->]]; simpl.
  - destruct ds as [|d ds']; [simpl in Hlen; lia|].
    simpl in Hds. apply andb_true_iff in Hds as [Hd _].
    eexists. each_digit d Hd; apply (Hgo false).
  - eexists. apply (Hgo false).
  - eexists. apply (Hgo true).
Qed.

Lemma stops_exponent ex : ex = estr \/ exponent ex -> stops ex = true.
Proof.
  intros [-> | (c & sg & ds & -> & [-> | ->] & _)]; reflexivity.
Qed.

Lemma unsigned_decimal_tail neg m nd E r2 :
  (0 < nd)%nat -> r2 = estr \/ exponent r2 ->
  exists E',
    match nd with
    | O => None
    | S _ =>
        match exponent_part r2 with
        | Some (e, r3) => Some (Decimal neg m (E + e), r3)
        | None => Some (Decimal neg m E, r2)
        end
    end = Some (Decimal neg m E', estr).
Proof.
  intros Hnd Hex. destruct nd; [lia|].
  destruct Hex as [-> | [e ->]%exponent_part_exponent]; eauto.
Qed.

Lemma unsigned_decimal_numeral neg int fr ex :
  (all_digits int = true /\ (fr = estr \/ fraction fr)) \/
  (int = estr /\ fraction fr) ->
  ex = estr \/ exponent ex ->
  exists m E,
    unsigned_decimal neg (int +:+ fr +:+ ex) = Some (Decimal neg m E, estr).
Proof.
  intros Hbody Hex. pose proof (stops_exponent ex Hex) as Hstop.
  (* the integer part, possibly empty, and what follows it *)
  assert (Hint : exists iv ni,
            take_digits 10 0 0 (int +:+ fr +:+ ex) = (iv, ni, fr +:+ ex) /\
            String.prefix "Infinity" (int +:+ fr +:+ ex) = false /\
            ((0 < ni)%nat \/ fraction fr)).
  { destruct Hbody as [[Hi Hfr] | [-> Hfr]].
    - apply all_digits_forall in Hi as [Hi Hlen].
      exists (decimal_value 0 int), (String.length int). split; [|split].
      + apply (take_digits_app int _ 0%N 0%nat Hi).
        destruct Hfr as [-> | (ds & -> & _)]; [exact Hstop | reflexivity].
      + destruct int as [|d int']; [simpl in Hlen; lia|].
        simpl in Hi. apply andb_true_iff in Hi as [Hd _].
        rewrite append_cons. each_digit d Hd; reflexivity.
      + now left.
    - exists 0%N, 0%nat. destruct Hfr as (ds & -> & Hds).
      split; [reflexivity|]. split; [reflexivity|]. right. now exists ds. }
  destruct Hint as (iv & ni & Htd & Hpre & Hnd).
  unfold unsigned_decimal. rewrite Hpre, Htd. cbv beta iota.
  assert (Hfr : fr = estr \/ fraction fr) by (destruct Hbody as [[_ ?] | [_ ?]]; auto).
  destruct Hfr as [-> | (ds & -> & Hds)].
  - (* no fraction: the digits, then the exponent *)
    assert (Hni : (0 < ni)%nat).
    { destruct Hnd as [? | (ds & [=] & _)]; assumption. }
    change (estr +:+ ex) with ex.
    assert (Hm : match ex with
                 | String "."%char r' =>
                     let '(m, nf, r'') := take_digits 10 iv 0 r' in
                     (m, (ni + nf)%nat, - Z.of_nat nf, r'')
                 | _ => (iv, ni, 0, ex)
                 end = (iv, ni, 0, ex)).
    { destruct Hex as [-> | (c & sg & ds & -> & [-> | ->] & _)]; reflexivity. }
    rewrite Hm. exists iv.
    now apply unsigned_decimal_tail.
  - (* a fraction: its digits go on from the integer part *)
    apply all_digits_forall in Hds as [Hds Hlen].
    rewrite append_cons.
    rewrite (take_digits_app ds ex iv 0%nat Hds Hstop).
    exists (decimal_value iv ds).
    apply unsigned_decimal_tail; [lia | exact Hex].
Qed.

(** The mathematical value of a numeral is a decimal. *)
Lemma MV_numeral s :
  numeral s -> exists neg m e, MV s = Decimal neg m e.
Proof.
  intros (sg & int & fr & ex & -> & Hsg & Hbody & Hex).
  set (body := int +:+ fr +:+ ex).
  (* the body starts with a digit or with the point *)
  assert (Hhead : exists c r, body = String c r /\
            (is_digit c = true \/ c = "."%char) /\
            (c = "0"%char -> match r with
                             | EmptyString => True
                             | String c2 _ => is_digit c2 = true \/ c2 = "."%char
                                              \/ c2 = "e"%char \/ c2 = "E"%char
                             end)).
  { unfold body. destruct Hbody as [[Hi Hfr] | [-> (ds & -> & _)]].
    - apply all_digits_forall in Hi as [Hi Hlen].
      destruct int as [|d int']; [simpl in Hlen; lia|].
      simpl in Hi. apply andb_true_iff in Hi as [Hd Hi].
      rewrite append_cons. eexists d, _. split; [reflexivity|].
      split; [now left|]. intros _.
      destruct int' as [|d2 int''].
      + change (estr +:+ fr +:+ ex) with (fr +:+ ex).
        destruct Hfr as [-> | (ds & -> & _)].
        * change (estr +:+ ex) with ex.
          destruct Hex as [-> | (c & sg' & ds & -> & [-> | ->] & _)]; auto.
        * rewrite append_cons. auto.
      + rewrite append_cons. simpl in Hi.
        apply andb_true_iff in Hi as [Hd2 _]. auto.
    - rewrite append_cons. eexists _, _. split; [reflexivity|].
      split; [now right|]. discriminate. }
  destruct Hhead as (c & r & Hbody' & Hc & Hc0).
  destruct (unsigned_decimal_numeral true int fr ex Hbody Hex) as (m1 & E1 & Hneg).
  destruct (unsigned_decimal_numeral false int fr ex Hbody Hex) as (m2 & E2 & Hpos).
  fold body in Hneg, Hpos. rewrite Hbody' in Hneg, Hpos.
  assert (Hnd : non_decimal (String c r) = None).
  { unfold non_decimal.
    destruct (decide (c = "0"%char)) as [-> | Hne].
    - specialize (Hc0 eq_refl). destruct r as [|c2 r2]; [reflexivity|].
      destruct Hc0 as [Hd2 | [-> | [-> | ->]]]; try reflexivity.
      each_digit c2 Hd2; reflexivity.
    - destruct Hc as [Hd | ->]; [|reflexivity].
      each_digit c Hd; try reflexivity. now contradiction Hne. }
  destruct Hsg as [-> | ->].
  - change (estr +:+ body) with body. rewrite Hbody'.
    exists false, m2, E2.
    unfold MV.
    assert (skip_ws (String c r) = String c r) as ->.
    { destruct Hc as [Hd | ->]; [each_digit c Hd|]; reflexivity. }
    unfold numeric_literal. rewrite Hnd.
    assert (match String c r with
            | String "-"%char r0 => unsigned_decimal true r0
            | String "+"%char r0 => unsigned_decimal false r0
            | _ => unsigned_decimal false (String c r)
            end = Some (Decimal false m2 E2, estr)) as ->; [|reflexivity].
    destruct Hc as [Hd | ->]; [each_digit c Hd|]; exact Hpos.
  - change ("-" +:+ body) with (String "-"%char body). rewrite Hbody'.
    exists true, m1, E1.
    unfold MV. change (skip_ws (String "-" (String c r)))
      with (String "-"%char (String c r)).
    unfold numeric_literal.
    change (non_decimal (String "-" (String c r))) with (@None (number * string)).
    cbv beta iota. now rewrite Hneg.
Qed.

(** [Number] at texts of each kind: not a literal, white space, a whole
    number half-way between two binary64 numbers, and numerals too large
    and too small for binary64. *)
Lemma Number_examples :
  Number "abc" = NaN /\ Number " " = Decimal false 0 0 /\
  Number "9007199254740992" = Decimal false 9007199254740992 0 /\
  Number "9007199254740993"
  = Decimal false (Z.to_N (9007199254740992 * 10 ^ 1074)) (-1074) /\
  Number "1e400" = Infinity false /\
  Number "-1e400" = Infinity true /\
  Number "1e-400" = Decimal false 0 (-1074) /\
  Number "4.9e-324" = Decimal false (Z.to_N (5 ^ 1074)) (-1074).
Proof. vm_compute. repeat split. Qed.

(** C7, as stated, fails for a numeral that a number field delivers:
    [1e-400] denotes a number that is not zero, and what is stored for it
    is zero, the binary64 number nearest to it. *)
Lemma toNum_underflow :
  numeral "1e-400" /\ is_zero (MV "1e-400") = false /\
  exists x, toNum "1e-400" = VNum x /\ is_zero x = true.
Proof.
  split; [|split; [reflexivity|]].
  - exists estr, "1", estr, "e-400". split; [reflexivity|].
    split; [now left|]. split; [left; split; [reflexivity | now left]|].
    right. exists "e"%char, "-", "400". repeat split; auto.
  - exists (Decimal false 0 (-1074)). split; [|reflexivity].
    vm_compute. reflexivity.
Qed.

(** C7 (amended): [toNum] maps the empty string, and no other text, to
    the absent value; any other text [s] is stored as [Number(s)].  For
    a decimal numeral, the text a number field delivers, the stored
    number is not [NaN], and it is zero exactly when the numeral denotes
    zero or a number of at most [2^-1075], which rounds to zero.  A run
    of decimal digits is stored as zero only when every digit is 0, and
    as exactly the number it denotes when that is below [2^53]. *)
Theorem toNum_spec (s : string) :
  toNum estr = VUndef /\
  (toNum s = VUndef -> s = estr) /\
  (s <> estr -> toNum s = VNum (Number s)) /\
  (numeral s ->
     exists x, toNum s = VNum x /\ is_NaN x = false /\
       (is_zero x = true
        <-> is_zero (MV s) = true \/ underflows (MV s) = true)) /\
  (all_digits s = true ->
     (is_zero (Number s) = true <-> all_zeros s = true) /\
     (Z.of_N (decimal_value 0 s) < 2 ^ 53 ->
      toNum s = VNum (Decimal false (decimal_value 0 s) 0))).
Proof.
  assert (Hne : s <> estr -> toNum s = VNum (Number s)).
  { intros Hs. unfold toNum. now rewrite bool_decide_eq_false_2. }
  split; [reflexivity|].
  split; [unfold toNum; case_bool_decide; [easy | discriminate]|].
  split; [exact Hne|]. split.
  - intros Hn. exists (Number s). split; [|split].
    + apply Hne. intros ->.
      destruct Hn as (sg & int & fr & ex & Heq & _ & Hbody & _).
      destruct sg; [|discriminate].
      destruct Hbody as [[Hi _] | [-> (ds & -> & _)]]; [|discriminate].
      destruct int; discriminate.
    + destruct (MV_numeral s Hn) as (neg & m & e & Hmv).
      unfold Number. now rewrite round_is_NaN, Hmv.
    + destruct (MV_numeral s Hn) as (neg & m & e & Hmv).
      unfold Number. rewrite Hmv, round_is_zero.
      cbn [is_zero]. now rewrite N.eqb_eq.
  - intros Hd. assert (s <> estr) as Hs by (intros ->; discriminate).
    pose proof (MV_digits s Hd) as Hmv. split.
    + unfold Number. rewrite Hmv, round_is_zero.
      assert (Hz : decimal_value 0 s = 0%N <-> all_zeros s = true).
      { rewrite decimal_value_zero
          by (destruct s; [discriminate | exact Hd]). tauto. }
      rewrite <- Hz.
      split; [intros [H0 | Hu] | intros H0; now left].
      * exact H0.
      * exfalso. unfold underflows in Hu.
        apply andb_true_iff in Hu as [Hm%N.ltb_lt Hle%Z.leb_le].
        change (numerator (decimal_value 0 s) 0)
          with (Z.of_N (decimal_value 0 s) * 1) in Hle.
        change (denominator 0) with 1 in Hle.
        assert (0 < 2 ^ 1075) by (apply Z.pow_pos_nonneg; lia). nia.
    + intros Hsmall. rewrite (Hne Hs). unfold Number.
      now rewrite Hmv, round_small_int.
Qed.

Lemma toNum_spec_witness :
  toNum "380" = VNum (Decimal false 380 0) /\
  exists x, toNum "-2.4e3" = VNum x /\ is_NaN x = false.
Proof.
  split.
  - destruct (toNum_spec "380") as (_ & _ & _ & _ & H).
    destruct H as (_ & H); [reflexivity|]. apply H. vm_compute. reflexivity.
  - destruct (toNum_spec "-2.4e3") as (_ & _ & _ & H & _).
    destruct H as (x & Hx & Hn & _); [|exists x; split; assumption].
    exists "-", "2", ".4", "e3". split; [reflexivity|].
    split; [now right|]. split.
    + left. split; [reflexivity|]. right. now exists "4".
    + right. exists "e"%char, estr, "3". repeat split; auto.
Defined.

End NumeralFacts.

(** ** The autosave effect *)

Section AutosaveFacts.
Import Autosave.
Context {Doc : Type}.
Implicit Types (s : scheduler Doc) (d : Doc).

Lemma clear_saved_tidy s :
  tidy s ->
  clear_saved s
  = {| clock := clock s; timers := []; next_id := next_id s;
       saveTimer := saveTimer s; storage := storage s |}.
Proof.
  unfold clear_saved, clearTimeout.
  intros [Ht | (tm & Ht & Hs)]; rewrite Ht.
  - destruct s as [c ts n [id|] st]; simpl in *; now subst.
  - rewrite Hs. rewrite filter_cons, decide_False by (now intros H).
    now rewrite filter_nil, <- Hs.
Qed.

Lemma handle_Change_tidy s d :
  tidy s ->
  handle (Change d) s
  = {| clock := clock s;
       timers := [ {| tid := next_id s; due := clock s + 500; payload := d |} ];
       next_id := Pos.succ (next_id s);
       saveTimer := Some (next_id s); storage := storage s |}.
Proof.
  intros Hs. unfold handle, cleanup, effect.
  rewrite (clear_saved_tidy s Hs).
  rewrite clear_saved_tidy by (now left). reflexivity.
Qed.

Lemma handle_Unmount_tidy s : tidy s -> timers (handle Unmount s) = [].
Proof.
  intros Hs. unfold handle, cleanup. now rewrite clear_saved_tidy.
Qed.


Lemma handle_tidy e s : tidy s -> tidy (handle e s).
Proof.
  intros Hs. destruct e as [d|].
  - rewrite handle_Change_tidy by exact Hs. right. eauto.
  - left. now apply handle_Unmount_tidy.
Qed.


(** One pending timer, not yet due: nothing is written. *)
Lemma advance_wait t s tm :
  timers s = [tm] -> t < due tm ->
  advance t s
  = {| clock := Z.max (clock s) t; timers := [tm]; next_id := next_id s;
       saveTimer := saveTimer s; storage := storage s |}.
Proof.
  intros Ht Hlt. unfold advance. rewrite Ht.
  rewrite !filter_cons, !filter_nil.
  rewrite (decide_False (P := due tm <= t)) by lia.
  rewrite (decide_True (P := ~ due tm <= t)) by lia.
  simpl. now rewrite app_nil_r.
Qed.

(** One pending timer, due: its document is written at its due time. *)
Lemma advance_fire t s tm :
  timers s = [tm] -> due tm <= t ->
  advance t s
  = {| clock := Z.max (clock s) t; timers := []; next_id := next_id s;
       saveTimer := saveTimer s;
       storage := storage s ++ [(due tm, payload tm)] |}.
Proof.
  intros Ht Hle. unfold advance. rewrite Ht.
  rewrite !filter_cons, !filter_nil.
  rewrite (decide_True (P := due tm <= t)) by lia.
  rewrite (decide_False (P := ~ due tm <= t)) by lia.
  reflexivity.
Qed.


Lemma run_nil s : run [] s = s.
Proof. reflexivity. Qed.

Lemma advance_idle t s : timers s = [] -> storage (advance t s) = storage s.
Proof. intros Ht. unfold advance. rewrite Ht. simpl. now rewrite app_nil_r. Qed.

End AutosaveFacts.

(** ** The autosave in the running component *)

Section LifecycleFacts.
Import Store Autosave Lifecycle.
Context {Doc : Type}.
Implicit Types (s : scheduler Doc) (d : Doc) (w : component Doc).

Lemma keyboard_cleanup_throws : keyboard_cleanup = Throw.
Proof. reflexivity. Qed.

(** A render after the mount ends the component: the cleanup of the
    keyboard effect throws, and the unmount that follows clears the timer
    the autosave effect has just set. *)
Lemma apply_commit_mounted (c : commit Doc) w :
  mounted w = true -> tidy (effects w) ->
  mounted (apply_commit c w) = false /\
  timers (effects (apply_commit c w)) = [] /\
  storage (effects (apply_commit c w)) = storage (effects w).
Proof.
  intros Hm Ht. unfold apply_commit. rewrite Hm, keyboard_cleanup_throws.
  cbn [mounted effects]. set (s1 := match c with SetState d => _ | SetStep => _ end).
  assert (Ht1 : tidy s1) by (destruct c; [now apply handle_tidy | exact Ht]).
  assert (Hs1 : storage s1 = storage (effects w)).
  { destruct c as [d|]; [|reflexivity]. unfold s1.
    now rewrite (handle_Change_tidy _ d Ht). }
  split; [reflexivity|]. split; [now apply handle_Unmount_tidy|].
  unfold handle, cleanup. now rewrite (clear_saved_tidy _ Ht1).
Qed.

(** Once unmounted, with no timer left, nothing happens any more. *)
Lemma live_unmounted (evs : list (Z * commit Doc)) w :
  mounted w = false -> timers (effects w) = [] ->
  mounted (live evs w) = false /\
  timers (effects (live evs w)) = [] /\
  storage (effects (live evs w)) = storage (effects w).
Proof.
  revert w. induction evs as [|[t c] evs IH]; intros w Hm Ht; [easy|].
  change (live ((t, c) :: evs) w) with (live evs (apply_commit c (wait t w))).
  assert (Hw : apply_commit c (wait t w) = wait t w)
    by (unfold apply_commit; cbn [wait mounted]; now rewrite Hm).
  rewrite Hw.
  assert (Ht' : timers (effects (wait t w)) = [])
    by (cbn [wait effects advance timers]; now rewrite Ht).
  destruct (IH (wait t w) Hm Ht') as (H1 & H2 & H3).
  split; [exact H1|]. split; [exact H2|]. rewrite H3.
  cbn [wait effects]. now apply advance_idle.
Qed.

(** The writes of a component mounted at [t0] with the document [d0],
    whose first render after that is at [t1]: the document of the mount,
    if its 500 had passed by [t1], and nothing else, ever. *)
Lemma live_writes (t0 t1 T : Z) d0 (c1 : commit Doc)
    (evs : list (Z * commit Doc)) :
  mounted (live ((t1, c1) :: evs) (mount t0 d0)) = false /\
  storage (advance T (effects (live ((t1, c1) :: evs) (mount t0 d0))))
  = if decide (t0 + 500 <= t1) then [(t0 + 500, d0)] else [].
Proof.
  change (live ((t1, c1) :: evs) (mount t0 d0))
    with (live evs (apply_commit c1 (wait t1 (mount t0 d0)))).
  set (tm := {| tid := 1%positive; due := t0 + 500; payload := d0 |}).
  assert (Hw : tidy (effects (wait t1 (mount t0 d0))) /\
               storage (effects (wait t1 (mount t0 d0)))
               = if decide (t0 + 500 <= t1) then [(t0 + 500, d0)] else []).
  { cbn [wait mount effects]. case_decide.
    - rewrite (advance_fire t1 _ tm) by (reflexivity || (simpl; lia)).
      split; [now left | reflexivity].
    - rewrite (advance_wait t1 _ tm) by (reflexivity || (simpl; lia)).
      split; [right; exists tm; now split | reflexivity]. }
  destruct Hw as [Htidy Hst].
  destruct (apply_commit_mounted c1 (wait t1 (mount t0 d0)) eq_refl Htidy)
    as (Hm & Ht & Hs).
  destruct (live_unmounted evs _ Hm Ht) as (Hm' & Ht' & Hs').
  split; [exact Hm'|].
  now rewrite (advance_idle T _ Ht'), Hs', Hs.
Qed.

(** C5 fails on the code.  The autosave effect is a debounce, but the
    first change of the document after the mount also runs the cleanup of
    the keyboard effect, which throws; React unmounts the component, and
    the cleanup of the autosave effect clears the timer just set.  With
    the mount at 0 and a change at 300 nothing is ever written, not even
    at 800; with the mount at 0 and a change at 600 the one write is that
    of the first document at 500, and the document of the change is never
    written. *)
Theorem autosave_lost_on_change (a b : Doc) (T : Z) :
  keyboard_cleanup = Throw /\
  mounted (live [(300, SetState b)] (mount 0 a)) = false /\
  storage (advance T (effects (live [(300, SetState b)] (mount 0 a)))) = [] /\
  storage (advance T (effects (live [(600, SetState b)] (mount 0 a))))
  = [(500, a)].
Proof.
  split; [reflexivity|].
  destruct (live_writes 0 300 T a (SetState b) []) as [Hm H300].
  destruct (live_writes 0 600 T a (SetState b) []) as [_ H600].
  split; [exact Hm|]. split; [exact H300 | exact H600].
Qed.

End LifecycleFacts.

(** ** The store and [setAt] *)

Section StoreFacts.
Import Store.
Implicit Types (h : heap) (c : cell) (v x : val) (k : string) (l m : nat).

Lemma set_prop_Ret c k v c' :
  set_prop c k v = Ret c' ->
  exists p, c = CObj p /\ c' = CObj (<[k := v]> p).
Proof.
  destruct c as [p|e]; simpl; [|discriminate].
  destruct (p !! k).
  - intros [= <-]; eauto.
  - case_bool_decide; [discriminate|]. intros [= <-]; eauto.
Qed.

Lemma get_prop_Ret c k x :
  get_prop c k = Ret x ->
  exists p, c = CObj p /\
    (p !! k = Some x \/ (p !! k = None /\ x = VUndef)).
Proof.
  destruct c as [p|e]; simpl; [|discriminate].
  destruct (p !! k) as [w|] eqn:Hk.
  - intros [= <-]. eauto.
  - destruct (inherited k); [discriminate|]. intros [= <-]. eauto.
Qed.

Lemma setp_Ret h l k v h' :
  setp h l k v = Ret h' ->
  exists p, h !! l = Some (CObj p) /\ h' = <[l := CObj (<[k := v]> p)]> h.
Proof.
  unfold setp, read. destruct (h !! l) as [c|]; simpl; [|discriminate].
  destruct (set_prop c k v) as [c'| |] eqn:E; simpl; try discriminate.
  apply set_prop_Ret in E as (p & -> & ->). intros [= <-]. eauto.
Qed.

Lemma getp_Ret h l k x :
  getp h l k = Ret x ->
  exists p, h !! l = Some (CObj p) /\
    (p !! k = Some x \/ (p !! k = None /\ x = VUndef)).
Proof.
  unfold getp, read. destruct (h !! l) as [c|]; simpl; [|discriminate].
  intros (p & -> & H)%get_prop_Ret. eauto.
Qed.

Lemma setp_intro h l k v p c' :
  h !! l = Some (CObj p) -> set_prop (CObj p) k v = Ret c' ->
  setp h l k v = Ret (<[l := c']> h).
Proof.
  intros Hl Hs. unfold setp, read. rewrite Hl.
  unfold mbind, outcome_bind. now rewrite Hs.
Qed.

Lemma setp_set_prop h l k v h' p :
  setp h l k v = Ret h' -> h !! l = Some (CObj p) ->
  set_prop (CObj p) k v = Ret (CObj (<[k := v]> p)).
Proof.
  unfold setp, read. intros Hs Hl. rewrite Hl in Hs.
  unfold mbind, outcome_bind in Hs.
  destruct (set_prop (CObj p) k v) as [c'| |] eqn:E; try discriminate.
  now apply set_prop_Ret in E as (p' & [= <-] & ->).
Qed.

(** Writing to a property the value it has changes nothing. *)
Lemma setp_same h l k x p :
  h !! l = Some (CObj p) -> p !! k = Some x -> setp h l k x = Ret h.
Proof.
  intros Hl Hk. unfold setp, read. rewrite Hl. simpl. rewrite Hk. simpl.
  rewrite (insert_id p k x Hk). now rewrite list_insert_id.
Qed.

(** One round of the loop, read backwards: the object under [k] is
    entered as it is, or a new empty object is stored under [k] and
    entered. *)
Lemma walk_cons_Ret h cur k ks lastk v h' :
  walk h cur (k :: ks) lastk v = Ret h' ->
  exists p, h !! cur = Some (CObj p) /\
    ((exists l, p !! k = Some (VRef l) /\ walk h l ks lastk v = Ret h') \/
     ((p !! k = None \/ p !! k = Some VUndef \/ p !! k = Some VNull) /\
      walk (<[cur := CObj (<[k := VRef (length h)]> p)]> (h ++ [CObj ∅]))
           (length h) ks lastk v = Ret h')).
Proof.
  intros Hw. simpl in Hw.
  destruct (getp h cur k) as [x| |] eqn:Hg; simpl in Hw; try discriminate.
  apply getp_Ret in Hg as (p & Hcur & Hx). exists p. split; [exact Hcur|].
  destruct (nullish x) eqn:Hn.
  - destruct (setp (h ++ [CObj ∅]) cur k (VRef (length h)))
      as [h2| |] eqn:Hs; simpl in Hw; try discriminate.
    apply setp_Ret in Hs as (p' & Hcur' & ->).
    rewrite lookup_app_l in Hcur' by (eapply lookup_lt_Some; eauto).
    assert (p' = p) as -> by congruence.
    right. split; [|exact Hw].
    destruct Hx as [Hx | [Hx ->]]; [|now left].
    destruct x; try discriminate; auto.
  - destruct Hx as [Hx | [_ ->]]; [|discriminate].
    rewrite (setp_same h cur k x p Hcur Hx) in Hw. simpl in Hw.
    destruct x; try discriminate;
      try (unfold assign_on_primitive in Hw; case_bool_decide; discriminate).
    left. eauto.
Qed.

Lemma walk_length h cur ks lastk v h' :
  walk h cur ks lastk v = Ret h' -> (length h <= length h')%nat.
Proof.
  revert h cur. induction ks as [|k ks IH]; intros h cur Hw.
  - apply setp_Ret in Hw as (p & _ & ->). now rewrite length_insert.
  - apply walk_cons_Ret in Hw as (p & Hcur & [(l & _ & Hw) | (_ & Hw)]).
    + eauto.
    + apply IH in Hw. rewrite length_insert, length_app in Hw. simpl in Hw. lia.
Qed.

(** The walk stays among the objects reachable from where it stands and
    the objects it creates: every other object is as it was. *)
Lemma walk_frame h cur ks lastk v h' m :
  walk h cur ks lastk v = Ret h' ->
  (m < length h)%nat -> ~ reach h cur m ->
  h' !! m = h !! m.
Proof.
  revert h cur. induction ks as [|k ks IH]; intros h cur Hw Hm Hr.
  - apply setp_Ret in Hw as (p & _ & ->).
    apply list_lookup_insert_ne. intros ->. apply Hr. constructor.
  - assert (cur <> m) as Hne by (intros ->; apply Hr; constructor).
    apply walk_cons_Ret in Hw as (p & Hcur & [(l & Hk & Hw) | (_ & Hw)]).
    all: pose proof (lookup_lt_Some _ _ _ Hcur) as Hlt.
    + apply (IH _ _ Hw Hm). intros Hl. apply Hr.
      eapply reach_step; [exact Hcur | exists k; exact Hk | exact Hl].
    + rewrite (IH _ _ Hw).
      * rewrite list_lookup_insert_ne by exact Hne. now apply lookup_app_l.
      * rewrite length_insert, length_app. lia.
      * intros Hl. inversion Hl as [|? c l' ? Hc Hh]; subst; [lia|].
        rewrite list_lookup_insert_ne in Hc by lia.
        rewrite lookup_app_r, Nat.sub_diag in Hc by lia.
        injection Hc as <-. destruct Hh as [k' Hk']. now rewrite lookup_empty in Hk'.
Qed.

(** Objects stay objects. *)
Lemma walk_keeps_objects h cur ks lastk v h' l p :
  walk h cur ks lastk v = Ret h' ->
  h !! l = Some (CObj p) -> exists p', h' !! l = Some (CObj p').
Proof.
  revert h cur p. induction ks as [|k ks IH]; intros h cur p Hw Hl.
  - apply setp_Ret in Hw as (q & Hq & ->).
    destruct (decide (cur = l)) as [->|Hne].
    + rewrite list_lookup_insert_eq by (eapply lookup_lt_Some; eauto). eauto.
    + rewrite list_lookup_insert_ne by exact Hne. eauto.
  - apply walk_cons_Ret in Hw as (q & Hcur & [(l' & _ & Hw) | (_ & Hw)]).
    + eauto.
    + destruct (decide (cur = l)) as [->|Hne].
      * eapply (IH _ _ _ Hw). rewrite list_lookup_insert_eq; [reflexivity|].
        rewrite length_app. apply lookup_lt_Some in Hl. lia.
      * eapply (IH _ _ _ Hw). rewrite list_lookup_insert_ne by exact Hne.
        rewrite lookup_app_l by (eapply lookup_lt_Some; eauto). exact Hl.
Qed.

(** *** Closed stores *)

Lemma val_closed_length h h' v :
  (length h <= length h')%nat -> val_closed h v -> val_closed h' v.
Proof. destruct v; simpl; auto. lia. Qed.

Lemma heap_closed_insert h l p k w :
  heap_closed h -> h !! l = Some (CObj p) -> val_closed h w ->
  heap_closed (<[l := CObj (<[k := w]> p)]> h).
Proof.
  intros Hc Hl Hw m c x Hm Hx.
  apply (val_closed_length h); [now rewrite length_insert|].
  destruct (decide (l = m)) as [->|Hne].
  - rewrite list_lookup_insert_eq in Hm by (eapply lookup_lt_Some; eauto).
    injection Hm as <-. destruct Hx as [k' Hk'].
    destruct (decide (k = k')) as [->|Hk].
    + rewrite lookup_insert_eq in Hk'. now injection Hk' as <-.
    + rewrite lookup_insert_ne in Hk' by exact Hk.
      apply (Hc m (CObj p) x Hl). now exists k'.
  - rewrite list_lookup_insert_ne in Hm by exact Hne. eauto.
Qed.

Lemma heap_closed_alloc h c :
  heap_closed h -> (forall x, holds c x -> val_closed h x) ->
  heap_closed (h ++ [c]).
Proof.
  intros Hc Hn m c' x Hm Hx.
  apply (val_closed_length h); [rewrite length_app; lia|].
  apply lookup_app_Some in Hm as [Hm | [_ Hm]]; [eauto|].
  apply list_lookup_singleton_Some in Hm as [_ <-]. auto.
Qed.

Lemma walk_closed h cur ks lastk v h' :
  heap_closed h -> val_closed h v ->
  walk h cur ks lastk v = Ret h' -> heap_closed h'.
Proof.
  revert h cur. induction ks as [|k ks IH]; intros h cur Hc Hv Hw.
  - apply setp_Ret in Hw as (p & Hcur & ->). now apply heap_closed_insert.
  - apply walk_cons_Ret in Hw as (p & Hcur & [(l & _ & Hw) | (_ & Hw)]).
    + eauto.
    + apply (IH _ _) in Hw; [exact Hw | |].
      * apply heap_closed_insert.
        -- apply heap_closed_alloc; [exact Hc|].
           intros x [k' Hk']. now rewrite lookup_empty in Hk'.
        -- apply lookup_app_l_Some. exact Hcur.
        -- simpl. rewrite length_app. simpl. lia.
      * eapply val_closed_length; [|exact Hv].
        rewrite length_insert, length_app. lia.
Qed.

(** *** Finite documents have no cycle *)

Lemma finite_ext h e v : finite h v -> finite (h ++ e) v.
Proof.
  induction 1 as [v Hv | l c Hl Hch IH]; [now constructor|].
  apply (finite_ref _ l c); [now apply lookup_app_l_Some | exact IH].
Qed.

Lemma reach_snoc h a b c d :
  reach h a b -> h !! b = Some c -> holds c (VRef d) -> reach h a d.
Proof.
  induction 1 as [l | l c0 l' x Hl Hh Hr IH]; intros Hb Hd.
  - eapply reach_step; [exact Hb | exact Hd | constructor].
  - eapply reach_step; [exact Hl | exact Hh | now apply IH].
Qed.

Lemma finite_no_cycle h v :
  finite h v ->
  forall l c l', v = VRef l -> h !! l = Some c -> holds c (VRef l') ->
  ~ reach h l' l.
Proof.
  induction 1 as [v Hv | l c Hl Hch IH]; intros l0 c0 l' Heq Hl0 Hh Hr.
  - now apply (Hv l0).
  - injection Heq as <-. assert (c0 = c) as -> by congruence.
    inversion Hr as [|? c2 m ? Hl' Hm Hrm]; subst.
    + apply (IH (VRef l) Hh l c l eq_refl Hl Hh). constructor.
    + apply (IH (VRef l') Hh l' c2 m eq_refl Hl' Hm).
      eapply reach_snoc; [exact Hrm | exact Hl | exact Hh].
Qed.

(** *** Running the walk a second time *)

(** In a finite document the walk passes no object twice, so after it
    every segment leads where the walk went, and the walk run again
    changes nothing. *)
Lemma walk_replay h cur ks lastk v h' :
  finite h (VRef cur) ->
  walk h cur ks lastk v = Ret h' ->
  walk h' cur ks lastk v = Ret h'.
Proof.
  revert h cur. induction ks as [|k ks IH]; intros h cur Hf Hw.
  - apply setp_Ret in Hw as (p & Hcur & ->).
    pose proof (lookup_lt_Some _ _ _ Hcur) as Hlt. simpl.
    rewrite (setp_same _ cur lastk v (<[lastk := v]> p)); auto.
    + now rewrite list_lookup_insert_eq.
    + apply lookup_insert_eq.
  - pose proof Hw as Hw0.
    apply walk_cons_Ret in Hw as (p & Hcur & [(l & Hk & Hw) | (_ & Hw)]).
    all: pose proof (lookup_lt_Some _ _ _ Hcur) as Hlt.
    + assert (Hfl : finite h (VRef l)).
      { inversion Hf as [? Hv | ? c Hc Hch]; subst; [now contradiction (Hv cur)|].
        apply Hch. assert (c = CObj p) as -> by congruence. now exists k. }
      assert (Hcur' : h' !! cur = Some (CObj p)).
      { rewrite (walk_frame _ _ _ _ _ _ cur Hw Hlt); [exact Hcur|].
        eapply finite_no_cycle; [exact Hf | reflexivity | exact Hcur |].
        now exists k. }
      simpl. unfold getp, read. rewrite Hcur'. simpl. rewrite Hk. simpl.
      rewrite (setp_same h' cur k (VRef l) p Hcur' Hk). simpl.
      now apply (IH h l).
    + set (n := length h) in *.
      set (h2 := <[cur := CObj (<[k := VRef n]> p)]> (h ++ [CObj ∅])) in *.
      assert (Hn : h2 !! n = Some (CObj ∅)).
      { unfold h2. rewrite list_lookup_insert_ne by lia.
        unfold n. now rewrite lookup_app_r, Nat.sub_diag by lia. }
      assert (Hcur' : h' !! cur = Some (CObj (<[k := VRef n]> p))).
      { rewrite (walk_frame _ _ _ _ _ _ cur Hw).
        - unfold h2. apply list_lookup_insert_eq. rewrite length_app. lia.
        - unfold h2. rewrite length_insert, length_app. lia.
        - intros Hr. inversion Hr as [|? c l' ? Hc Hh]; subst; [lia|].
          assert (c = CObj ∅) as -> by congruence.
          destruct Hh as [k' Hk']. now rewrite lookup_empty in Hk'. }
      simpl. unfold getp, read. rewrite Hcur'. simpl.
      rewrite lookup_insert_eq. simpl.
      rewrite (setp_same h' cur k (VRef n) _ Hcur') by apply lookup_insert_eq.
      simpl. apply (IH h2 n); [|exact Hw].
      apply (finite_ref _ n (CObj ∅) Hn).
      intros x [k' Hk']. now rewrite lookup_empty in Hk'.
Qed.

(** A walk that changes nothing changes nothing in a larger store. *)
Lemma walk_noop_ext h cur ks lastk v e :
  walk h cur ks lastk v = Ret h ->
  walk (h ++ e) cur ks lastk v = Ret (h ++ e).
Proof.
  revert cur. induction ks as [|k ks IH]; intros cur Hw.
  - simpl in *. pose proof Hw as Hw0.
    apply setp_Ret in Hw as (p & Hcur & Heq).
    pose proof (lookup_lt_Some _ _ _ Hcur) as Hlt.
    rewrite (setp_intro (h ++ e) cur lastk v p (CObj (<[lastk := v]> p))).
    + now rewrite insert_app_l, <- Heq.
    + now apply lookup_app_l_Some.
    + now apply (setp_set_prop h cur lastk v h).
  - pose proof (walk_length _ _ _ _ _ _ Hw) as Hlen.
    apply walk_cons_Ret in Hw as (p & Hcur & [(l & Hk & Hw) | (_ & Hw)]).
    + simpl. unfold getp, read.
      rewrite (lookup_app_l_Some _ _ _ _ Hcur). simpl. rewrite Hk. simpl.
      rewrite (setp_same (h ++ e) cur k (VRef l) p)
        by (auto using lookup_app_l_Some).
      simpl. now apply IH.
    + apply walk_length in Hw.
      rewrite length_insert, length_app in Hw. simpl in Hw. lia.
Qed.

(** ... and nothing when it starts from a copy of the object it started
    from. *)
Lemma walk_noop_copy h cur ks lastk v c :
  walk h cur ks lastk v = Ret h ->
  h !! cur = Some c ->
  walk (h ++ [spread c]) (length h) ks lastk v = Ret (h ++ [spread c]).
Proof.
  intros Hw Hc. destruct ks as [|k ks].
  - simpl in *. pose proof Hw as Hw0.
    apply setp_Ret in Hw as (p & Hcur & Heq).
    assert (c = CObj p) as -> by congruence.
    assert (Hp : <[lastk := v]> p = p).
    { apply (f_equal (fun h => h !! cur)) in Heq.
      rewrite list_lookup_insert_eq in Heq by (eapply lookup_lt_Some; eauto).
      congruence. }
    change (spread (CObj p)) with (CObj p).
    assert (Hcl : (h ++ [CObj p]) !! length h = Some (CObj p)).
    { now rewrite lookup_app_r, Nat.sub_diag by lia. }
    rewrite (setp_intro _ (length h) lastk v p (CObj (<[lastk := v]> p)) Hcl).
    + now rewrite Hp, list_insert_id.
    + now apply (setp_set_prop h cur lastk v h).
  - pose proof (walk_length _ _ _ _ _ _ Hw) as Hlen.
    apply walk_cons_Ret in Hw as (p & Hcur & [(l & Hk & Hw) | (_ & Hw)]).
    + assert (c = CObj p) as -> by congruence.
      change (spread (CObj p)) with (CObj p).
      assert (Hcl : (h ++ [CObj p]) !! length h = Some (CObj p)).
      { now rewrite lookup_app_r, Nat.sub_diag by lia. }
      simpl. unfold getp, read. rewrite Hcl. simpl. rewrite Hk. simpl.
      rewrite (setp_same _ (length h) k (VRef l) p Hcl Hk). simpl.
      now apply walk_noop_ext.
    + apply walk_length in Hw.
      rewrite length_insert, length_app in Hw. simpl in Hw. lia.
Qed.

(** *** Deep equality *)

Lemma deep_equal_ext h e n v :
  heap_closed h -> val_closed h v -> deep_equal_to n (h ++ e) v h v.
Proof.
  intros Hc. revert v. induction n as [|n IH]; intros v Hv; [exact I|].
  destruct v as [| | b | x | s | l]; try reflexivity.
  simpl in *. destruct (lookup_lt_is_Some_2 h l Hv) as [c Hl].
  rewrite (lookup_app_l_Some _ _ _ _ Hl), Hl.
  destruct c as [p | es].
  - intros k. destruct (p !! k) as [w|] eqn:Hk; constructor.
    apply IH, (Hc l (CObj p) w Hl). now exists k.
  - apply Forall_Forall2_diag, Forall_forall. intros w Hw.
    apply IH, (Hc l (CArr es) w Hl). exact Hw.
Qed.


(** *** [setAt] *)

Lemma split_nonempty sep s : split sep s <> [].
Proof.
  destruct s as [|c s]; simpl; [discriminate|].
  case_bool_decide; [discriminate|]. destruct (split sep s); discriminate.
Qed.

Lemma split_no_dot s : no_dot s = true -> split "." s = [s].
Proof.
  unfold no_dot. induction s as [|c s IH]; simpl; [reflexivity|].
  intros [Hc Hs]%andb_true_iff. apply negb_true_iff in Hc.
  rewrite Hc, IH by exact Hs. reflexivity.
Qed.

Lemma split_path_of s f :
  no_dot s = true -> split "." (path_of s f) = s :: split "." f.
Proof.
  unfold no_dot, path_of. induction s as [|c s IH]; simpl; [reflexivity|].
  intros [Hc Hs]%andb_true_iff. apply negb_true_iff in Hc.
  rewrite Hc. simpl in IH. now rewrite IH.
Qed.

Lemma removelast_cons {A} (a : A) (xs : list A) :
  xs <> [] -> removelast (a :: xs) = a :: removelast xs.
Proof. now destruct xs. Qed.

Lemma last_cons {A} (a b : A) (xs : list A) :
  xs <> [] -> List.last (a :: xs) b = List.last xs b.
Proof. now destruct xs. Qed.

Lemma setAt_Ret h d path v h' r :
  setAt h d path v = Ret (h', r) ->
  exists c, h !! d = Some c /\ r = length h /\
    walk (h ++ [spread c]) (length h) (removelast (split "." path))
         (List.last (split "." path) estr) v = Ret h'.
Proof.
  unfold setAt, read. destruct (h !! d) as [c|]; simpl; [|discriminate].
  destruct (walk _ _ _ _ _) as [h1| |] eqn:Hw; simpl; try discriminate.
  intros [= <- <-]. eauto.
Qed.

Lemma reach_closed h e l m :
  heap_closed h -> reach (h ++ e) l m -> (l < length h)%nat ->
  (m < length h)%nat.
Proof.
  intros Hc. induction 1 as [l | l c l' x Hl Hh Hr IH]; intros Hlt; [exact Hlt|].
  rewrite lookup_app_l in Hl by exact Hlt.
  apply IH. exact (Hc l c (VRef l') Hl Hh).
Qed.

(** What [setAt] leaves at the new root when the path has two segments
    or more: the properties of the old root, with the first segment set to a
    new object if the old root had nothing there. *)
Lemma setAt_root h d k0 ks lastk v h' :
  heap_closed h ->
  forall c, h !! d = Some c ->
  walk (h ++ [spread c]) (length h) (k0 :: ks) lastk v = Ret h' ->
  exists p, c = CObj p /\
    ((exists l, p !! k0 = Some (VRef l) /\ h' !! length h = Some (CObj p)) \/
     ((p !! k0 = None \/ p !! k0 = Some VUndef \/ p !! k0 = Some VNull) /\
      h' !! length h = Some (CObj (<[k0 := VRef (S (length h))]> p)))).
Proof.
  intros Hc c Hd Hw.
  pose proof (lookup_lt_Some _ _ _ Hd) as Hdlt.
  apply walk_cons_Ret in Hw as (p & Hcl & Hw).
  rewrite lookup_app_r, Nat.sub_diag in Hcl by lia. simpl in Hcl.
  assert (c = CObj p) as -> by (destruct c; simpl in Hcl; congruence).
  exists p. split; [reflexivity|]. simpl in Hw.
  destruct Hw as [(l & Hk & Hw) | (Hk & Hw)]; [left | right].
  - exists l. split; [exact Hk|].
    rewrite (walk_frame _ _ _ _ _ _ (length h) Hw).
    + now rewrite lookup_app_r, Nat.sub_diag by lia.
    + rewrite length_app. simpl. lia.
    + intros Hr. apply (reach_closed h) in Hr; [lia | exact Hc |].
      apply (Hc d (CObj p) (VRef l) Hd). now exists k0.
  - split; [exact Hk|].
    rewrite length_app in Hw. simpl in Hw.
    replace (length h + 1)%nat with (S (length h)) in Hw by lia.
    rewrite (walk_frame _ _ _ _ _ _ (length h) Hw).
    + apply list_lookup_insert_eq. rewrite !length_app. simpl. lia.
    + rewrite length_insert, !length_app. simpl. lia.
    + intros Hr. inversion Hr as [|? c' l' ? Hc' Hh]; subst; [lia|].
      rewrite list_lookup_insert_ne in Hc' by lia.
      rewrite lookup_app_r in Hc' by (rewrite length_app; simpl; lia).
      rewrite length_app in Hc'. simpl in Hc'.
      replace (S (length h) - (length h + 1))%nat with 0%nat in Hc' by lia.
      injection Hc' as <-. destruct Hh as [k' Hk']. now rewrite lookup_empty in Hk'.
Qed.


Lemma holds_spread c v : holds (spread c) v <-> holds c v.
Proof. now destruct c. Qed.

(** C9: in a finite document, writing the same value at the same path a
    second time returns, and returns a document deep-equal to the result
    of the first write. *)
Theorem setAt_idempotent h d path v h1 r1 :
  heap_closed h -> val_closed h v -> finite h (VRef d) ->
  setAt h d path v = Ret (h1, r1) ->
  exists h2 r2,
    setAt h1 r1 path v = Ret (h2, r2) /\
    deep_equal h2 (VRef r2) h1 (VRef r1).
Proof.
  intros Hc Hv Hf (c & Hd & -> & Hw)%setAt_Ret.
  set (h0 := h ++ [spread c]) in *.
  assert (Hc0 : heap_closed h0).
  { apply heap_closed_alloc; [exact Hc|].
    intros x Hx. rewrite holds_spread in Hx. exact (Hc d c x Hd Hx). }
  assert (Hf0 : finite h0 (VRef (length h))).
  { apply (finite_ref _ _ (spread c)).
    - unfold h0. now rewrite lookup_app_r, Nat.sub_diag by lia.
    - intros x Hx. rewrite holds_spread in Hx. apply finite_ext.
      inversion Hf as [? Hp | ? c' Hc' Hch]; subst; [now contradiction (Hp d)|].
      apply Hch. congruence. }
  assert (Hc1 : heap_closed h1).
  { apply (walk_closed _ _ _ _ _ _ Hc0) in Hw; [exact Hw|].
    eapply val_closed_length; [|exact Hv]. unfold h0. rewrite length_app. lia. }
  pose proof (walk_length _ _ _ _ _ _ Hw) as Hlen.
  unfold h0 in Hlen. rewrite length_app in Hlen. simpl in Hlen.
  destruct (lookup_lt_is_Some_2 h1 (length h)) as [c1 Hl1]; [lia|].
  pose proof (walk_replay _ _ _ _ _ _ Hf0 Hw) as Hrep.
  pose proof (walk_noop_copy _ _ _ _ _ _ Hrep Hl1) as Hcopy.
  exists (h1 ++ [spread c1]), (length h1). split.
  - unfold setAt, read. rewrite Hl1. simpl. now rewrite Hcopy.
  - intros [|n]; [exact I|]. simpl.
    rewrite lookup_app_r, Nat.sub_diag, Hl1 by lia. simpl.
    destruct c1 as [p | es]; simpl.
    + intros k. destruct (p !! k) as [w|] eqn:Hk; constructor.
      apply deep_equal_ext; [exact Hc1|].
      apply (Hc1 _ _ w Hl1). now exists k.
    + apply Forall_Forall2_diag, Forall_forall. intros w Hw'.
      apply deep_equal_ext; [exact Hc1|]. exact (Hc1 _ _ w Hl1 Hw').
Qed.

(** A two-segment path into a section that is an object: the root is
    copied, the section object is written in place. *)
Lemma setAt_section_field h d path s f v props l p :
  h !! d = Some (CObj props) -> props !! s = Some (VRef l) ->
  h !! l = Some (CObj p) ->
  split "." path = [s; f] -> f <> "__proto__" ->
  setAt h d path v
  = Ret (<[l := CObj (<[f := v]> p)]> (h ++ [CObj props]), length h).
Proof.
  intros Hd Hs Hl Hsplit Hf. unfold setAt, read.
  rewrite Hsplit, Hd. simpl.
  assert (Hcl : (h ++ [CObj props]) !! length h = Some (CObj props)).
  { now rewrite lookup_app_r, Nat.sub_diag by lia. }
  unfold getp, read. rewrite Hcl. simpl. rewrite Hs. simpl.
  rewrite (setp_same _ (length h) s (VRef l) props Hcl Hs). simpl.
  rewrite (setp_intro _ l f v p (CObj (<[f := v]> p))); [reflexivity| |].
  - now apply lookup_app_l_Some.
  - unfold set_prop. destruct (p !! f); [reflexivity|].
    now rewrite bool_decide_eq_false_2.
Qed.


(** *** The checks are sound *)

Lemma holds_cell_vals c v : holds c v <-> v ∈ cell_vals c.
Proof.
  destruct c as [p | es]; simpl; [|reflexivity].
  rewrite list_elem_of_fmap. split.
  - intros [k Hk]. exists (k, v). split; [reflexivity|].
    now apply elem_of_map_to_list.
  - intros ([k w] & -> & Hk). exists k. now apply elem_of_map_to_list.
Qed.

Lemma val_closedb_sound h v : val_closedb h v = true -> val_closed h v.
Proof. destruct v; simpl; auto. apply bool_decide_eq_true. Qed.

Lemma heap_closedb_sound h : heap_closedb h = true -> heap_closed h.
Proof.
  unfold heap_closedb. rewrite forallb_forall. intros Hall l c v Hl Hv.
  apply val_closedb_sound.
  assert (Hc : forallb (val_closedb h) (cell_vals c) = true).
  { apply Hall, list_elem_of_In, list_elem_of_lookup. eauto. }
  rewrite forallb_forall in Hc. apply Hc, list_elem_of_In, holds_cell_vals, Hv.
Qed.

Lemma finiteb_sound n h v : finiteb n h v = true -> finite h v.
Proof.
  revert v. induction n as [|n IH]; intros v; simpl; [discriminate|].
  destruct v as [| | b | x | s | l]; try (intros _; now constructor).
  destruct (h !! l) as [c|] eqn:Hl; [|discriminate].
  rewrite forallb_forall. intros Hall.
  apply (finite_ref _ l c Hl). intros w Hw.
  apply IH, Hall, list_elem_of_In, holds_cell_vals, Hw.
Qed.

End StoreFacts.

(** ** The wizard document *)

Section WizardFacts.
Import Store Utils Wizard.
Implicit Types (h : heap) (v : val) (d l : nat).

Lemma has_sectionsb_true h state :
  has_sectionsb h state = true <-> has_sections h state.
Proof.
  unfold has_sections, has_sectionsb. split.
  - destruct state as [| | | | | d]; try discriminate.
    destruct (h !! d) as [[props|]|] eqn:Hd; try discriminate.
    rewrite forallb_forall. intros Hall. exists d, props.
    split; [reflexivity|]. split; [exact Hd|].
    intros s Hs%list_elem_of_In. specialize (Hall s Hs).
    destruct (props !! s) as [[| | | | | l]|]; try discriminate.
    destruct (h !! l) as [[p|]|] eqn:Hl; try discriminate. eauto.
  - intros (d & props & -> & Hd & Hall). rewrite Hd.
    apply forallb_forall. intros s Hs%list_elem_of_In.
    destruct (Hall s Hs) as (l & p & -> & ->). reflexivity.
Qed.

Lemma SECTIONS_no_dot s : s ∈ SECTIONS -> no_dot s = true.
Proof.
  revert s. apply Forall_forall. repeat constructor.
Qed.

Lemma wizard_paths_section_path path :
  path ∈ wizard_paths -> section_path path = true.
Proof.
  revert path. apply Forall_forall. repeat constructor.
Qed.

Lemma section_path_split path :
  section_path path = true ->
  exists s f, split "." path = [s; f] /\ s ∈ SECTIONS /\ f <> "__proto__".
Proof.
  unfold section_path.
  destruct (split "." path) as [|s [|f [|? ?]]]; try discriminate.
  intros [Hs Hf]%andb_true_iff. exists s, f.
  apply bool_decide_eq_true in Hs. apply negb_true_iff, bool_decide_eq_false in Hf.
  auto.
Qed.

(** A write at ["section.field"] goes through to the section object of
    the old document: old and new root hold the same section object, and
    that object has the new value. *)
Lemma setAt_writes_through h d path s f v :
  has_sections h (VRef d) ->
  split "." path = [s; f] -> s ∈ SECTIONS -> f <> "__proto__" ->
  exists h' r l p,
    setAt h d path v = Ret (h', r) /\
    get h (VRef d) s = Ret (VRef l) /\ h !! l = Some (CObj p) /\
    get h' (VRef r) s = Ret (VRef l) /\
    h' !! l = Some (CObj (<[f := v]> p)).
Proof.
  intros (d' & props & [= <-] & Hd & Hall) Hsplit Hs Hf.
  destruct (Hall s Hs) as (l & p & Hl & Hp).
  pose proof (lookup_lt_Some _ _ _ Hp) as Hlt.
  exists (<[l := CObj (<[f := v]> p)]> (h ++ [CObj props])), (length h), l, p.
  split; [now apply (setAt_section_field h d path s f v props l p)|].
  split; [simpl; unfold getp, read; rewrite Hd; simpl; now rewrite Hl|].
  split; [exact Hp|]. split.
  - simpl. unfold getp, read. rewrite list_lookup_insert_ne by lia.
    rewrite lookup_app_r, Nat.sub_diag by lia. simpl. now rewrite Hl.
  - apply list_lookup_insert_eq. rewrite length_app. lia.
Qed.

(** C1 fails on the code: [setAt] copies the root and then writes into
    the section object the old root still holds.  After
    [setAt(DEFAULT_STATE, "warp_range.mode", "rope")] the old document
    reads [warp_range.mode = "rope"], it is no longer deep-equal to what it
    was, and old and new document share the section that was written. *)
Theorem setAt_mutates_original :
  exists h' r,
    setAt module_heap DEFAULT_STATE "warp_range.mode" (VStr "rope")
      = Ret (h', r) /\
    field_of module_heap (VRef DEFAULT_STATE) "warp_range" "mode"
      = Ret VUndef /\
    field_of h' (VRef DEFAULT_STATE) "warp_range" "mode"
      = Ret (VStr "rope") /\
    get h' (VRef r) "warp_range" = get h' (VRef DEFAULT_STATE) "warp_range" /\
    ~ deep_equal h' (VRef DEFAULT_STATE) module_heap (VRef DEFAULT_STATE).
Proof.
  eexists _, _. split; [vm_compute; reflexivity|].
  split; [reflexivity|]. split; [reflexivity|]. split; [reflexivity|].
  intros H. specialize (H 2%nat). simpl in H.
  specialize (H "warp_range"). vm_compute in H.
  inversion H as [? ? H1|]; subst. specialize (H1 "mode").
  vm_compute in H1. inversion H1.
Qed.


Lemma module_heap_closed : heap_closed module_heap.
Proof. apply heap_closedb_sound. vm_compute. reflexivity. Qed.

Lemma module_heap_has_sections : has_sections module_heap (VRef DEFAULT_STATE).
Proof. apply has_sectionsb_true. reflexivity. Qed.

Lemma module_heap_finite : finite module_heap (VRef DEFAULT_STATE).
Proof. apply (finiteb_sound 3). vm_compute. reflexivity. Qed.

(** C4: after [setAt(d, "s1.field", v)] the new document holds under every
    other top-level key [s2] the very value the old one holds there: for
    objects, the same reference.  For a wizard document and two of its
    sections the call returns, and both documents hold the same section
    object under [s2]. *)
Theorem setAt_shares_sections h d s1 s2 field v :
  heap_closed h -> no_dot s1 = true -> s1 <> s2 ->
  (forall h' r,
     setAt h d (path_of s1 field) v = Ret (h', r) ->
     get h' (VRef r) s2 = get h (VRef d) s2) /\
  (has_sections h (VRef d) -> s1 ∈ SECTIONS -> s2 ∈ SECTIONS ->
   no_dot field = true -> field <> "__proto__" ->
   exists h' r l,
     setAt h d (path_of s1 field) v = Ret (h', r) /\
     get h' (VRef r) s2 = Ret (VRef l) /\
     get h (VRef d) s2 = Ret (VRef l)).
Proof.
  intros Hc Hs1 Hne.
  assert (Hshare : forall h' r,
     setAt h d (path_of s1 field) v = Ret (h', r) ->
     get h' (VRef r) s2 = get h (VRef d) s2).
  { intros h' r (c & Hd & -> & Hw)%setAt_Ret.
    rewrite (split_path_of s1 field Hs1) in Hw.
    rewrite removelast_cons, last_cons in Hw by apply split_nonempty.
    destruct (setAt_root _ _ _ _ _ _ _ Hc c Hd Hw) as (p & -> & Hroot).
    simpl. unfold getp, read. rewrite Hd.
    destruct Hroot as [(l & _ & ->) | (_ & ->)]; [reflexivity|].
    simpl. now rewrite lookup_insert_ne. }
  split; [exact Hshare|].
  intros Hsec Hin1 Hin2 Hf Hproto.
  destruct (setAt_writes_through h d (path_of s1 field) s1 field v Hsec)
    as (h' & r & l & p & Hset & _); auto.
  { now rewrite split_path_of, split_no_dot. }
  destruct Hsec as (d' & props & [= <-] & Hd & Hall).
  destruct (Hall s2 Hin2) as (l2 & p2 & Hl2 & _).
  exists h', r, l2. split; [exact Hset|].
  assert (get h (VRef d) s2 = Ret (VRef l2)) as Hget.
  { simpl. unfold getp, read. rewrite Hd. simpl. now rewrite Hl2. }
  split; [|exact Hget]. now rewrite (Hshare h' r Hset).
Qed.

Lemma setAt_shares_sections_witness :
  exists h' r,
    setAt module_heap DEFAULT_STATE (path_of "etp" "blocks") (VStr "Physical")
      = Ret (h', r) /\
    get h' (VRef r) "warp_range" = Ret (VRef 1) /\
    get module_heap (VRef DEFAULT_STATE) "warp_range" = Ret (VRef 1).
Proof.
  destruct (setAt_shares_sections module_heap DEFAULT_STATE
              "etp" "warp_range" "blocks" (VStr "Physical"))
    as [_ H]; [apply heap_closedb_sound; vm_compute; reflexivity
              | reflexivity | discriminate |].
  destruct H as (h' & r & l & Hset & Hnew & Hold);
    [apply has_sectionsb_true; reflexivity | compute_done | compute_done
    | reflexivity | discriminate |].
  exists h', r. split; [exact Hset|].
  assert (l = 1%nat) as -> by (vm_compute in Hold; congruence).
  split; [exact Hnew | exact Hold].
Defined.

Lemma setAt_idempotent_witness :
  exists h1 r1 h2 r2,
    setAt module_heap DEFAULT_STATE "etp.blocks" (VStr "Physical")
      = Ret (h1, r1) /\
    setAt h1 r1 "etp.blocks" (VStr "Physical") = Ret (h2, r2) /\
    deep_equal h2 (VRef r2) h1 (VRef r1).
Proof.
  destruct (setAt module_heap DEFAULT_STATE "etp.blocks" (VStr "Physical"))
    as [[h1 r1]| |] eqn:Hset; [|vm_compute in Hset; discriminate..].
  destruct (setAt_idempotent module_heap DEFAULT_STATE "etp.blocks"
              (VStr "Physical") h1 r1) as (h2 & r2 & H2 & Heq);
    [apply heap_closedb_sound; vm_compute; reflexivity
    | exact I
    | apply (finiteb_sound 3); vm_compute; reflexivity
    | exact Hset |].
  exists h1, r1, h2, r2. split; [reflexivity|]. split; [exact H2 | exact Heq].
Defined.

(** C2, as stated, fails at startup: a stored snapshot is taken as the
    document without a check, so the snapshot [{}] gives a document with no
    section. *)
Lemma snapshot_without_sections :
  let '(h, state) := initial_state (ReadText "{}" (Some (JObj []))) in
  ~ has_sections h state.
Proof.
  simpl. rewrite <- has_sectionsb_true. vm_compute. discriminate.
Qed.

(** C2 (amended): the default document has the seven sections, each an
    object, and it is the startup document whenever the storage slot has no
    usable text.  An update through a path of two or more segments keeps
    the seven sections (and the store closed), and every path the wizard
    uses returns such a document.  A snapshot that parses is taken as it
    is. *)
Theorem sections_invariant (r : storage_read) h state path v :
  has_sections module_heap (VRef DEFAULT_STATE) /\
  heap_closed module_heap /\
  ((forall raw j, r = ReadText raw (Some j) -> raw = estr) ->
   initial_state r = (module_heap, VRef DEFAULT_STATE)) /\
  (heap_closed h -> val_closed h v -> has_sections h state ->
   (forall h' state',
      onSelect h state path v = Ret (h', state') ->
      (2 <= length (split "." path))%nat ->
      has_sections h' state' /\ heap_closed h') /\
   (path ∈ wizard_paths ->
    exists h' state', onSelect h state path v = Ret (h', state'))).
Proof.
  split; [exact module_heap_has_sections|].
  split; [exact module_heap_closed|].
  split.
  { intros Hr. destruct r as [| | raw [j|]]; try reflexivity.
    simpl. now rewrite (Hr raw j eq_refl). }
  intros Hc Hv Hsec. split.
  - intros h' state' Hsel Hlen.
    destruct Hsec as (d & props & -> & Hd & Hall). simpl in Hsel.
    destruct (setAt h d path v) as [[h1 r1]| |] eqn:Hset; try discriminate.
    injection Hsel as <- <-.
    apply setAt_Ret in Hset as (c & Hd' & -> & Hw).
    assert (c = CObj props) as -> by congruence. clear Hd'.
    assert (Hc0 : heap_closed (h ++ [spread (CObj props)])).
    { apply heap_closed_alloc; [exact Hc|].
      intros x Hx. exact (Hc d _ x Hd Hx). }
    split.
    + destruct (split "." path) as [|k0 [|k1 rest]]; simpl in Hlen; try lia.
      rewrite removelast_cons in Hw by discriminate.
      pose proof Hw as Hw0.
      apply (setAt_root _ _ _ _ _ _ _ Hc _ Hd) in Hw as (p & [= <-] & Hroot).
      assert (Hobj : forall l q, h !! l = Some (CObj q) ->
                exists q', h1 !! l = Some (CObj q')).
      { intros l q Hl. eapply walk_keeps_objects; [exact Hw0|].
        apply lookup_app_l_Some. exact Hl. }
      destruct Hroot as [(l & _ & Hnew) | (Hnull & Hnew)].
      * exists (length h), props. repeat split; [exact Hnew|].
        intros s Hs. destruct (Hall s Hs) as (ls & q & Hls & Hq).
        destruct (Hobj ls q Hq) as [q' Hq']. eauto.
      * exists (length h), (<[k0 := VRef (S (length h))]> props).
        repeat split; [exact Hnew|].
        intros s Hs. destruct (Hall s Hs) as (ls & q & Hls & Hq).
        destruct (Hobj ls q Hq) as [q' Hq']. exists ls, q'.
        split; [|exact Hq']. rewrite lookup_insert_ne; [exact Hls|].
        intros ->. destruct Hnull as [H | [H | H]]; congruence.
    + apply (walk_closed _ _ _ _ _ _ Hc0) in Hw; [exact Hw|].
      eapply val_closed_length; [|exact Hv]. rewrite length_app. lia.
  - intros Hp%wizard_paths_section_path%section_path_split.
    destruct Hp as (s & f & Hsplit & Hs & Hf).
    destruct Hsec as (d & props & -> & Hd & Hall).
    destruct (setAt_writes_through h d path s f v) as (h' & r' & _ & _ & Hset & _);
      auto.
    { exists d, props. auto. }
    exists h', (VRef r'). simpl. now rewrite Hset.
Qed.

Lemma sections_invariant_witness :
  initial_state ReadNull = (module_heap, VRef DEFAULT_STATE) /\
  exists h' state',
    onSelect module_heap (VRef DEFAULT_STATE) "etp.blocks" (VStr "Physical")
      = Ret (h', state') /\
    has_sections h' state'.
Proof.
  destruct (sections_invariant ReadNull module_heap (VRef DEFAULT_STATE)
              "etp.blocks" (VStr "Physical")) as (_ & _ & Hinit & Hupd).
  split; [apply Hinit; discriminate|].
  destruct Hupd as [Hkeep Hret];
    [apply heap_closedb_sound; vm_compute; reflexivity | exact I
    | apply has_sectionsb_true; reflexivity |].
  destruct Hret as (h' & state' & Hsel); [compute_done|].
  exists h', state'. split; [exact Hsel|].
  apply (Hkeep h' state' Hsel). vm_compute. lia.
Defined.

(** C10: what the pH select stores is [mapPh] of the option chosen: text
    that starts with [10.0], [10.5] or [11.6] becomes the plain range
    (so the displayed [10.5–11.5 (mono-enolate)] is stored as
    [10.5–11.5]), any other text is stored as it is; the handler puts
    that text at [indigo_control.ph_window]. *)
Theorem mapPh_normalises (v : string) h state :
  (startsWith v "10.0" = true -> mapPh v = "10.0–10.4") /\
  (startsWith v "10.5" = true -> mapPh v = "10.5–11.5") /\
  (startsWith v "11.6" = true -> mapPh v = "11.6–12.0") /\
  (startsWith v "10.0" = false -> startsWith v "10.5" = false ->
   startsWith v "11.6" = false -> mapPh v = v) /\
  map mapPh ph_options = ["10.0–10.4"; "10.5–11.5"; "11.6–12.0"] /\
  (has_sections h state ->
   exists h' state',
     ph_onChange h state v = Ret (h', state') /\
     field_of h' state' "indigo_control" "ph_window" = Ret (VStr (mapPh v))).
Proof.
  split; [|split; [|split; [|split; [|split]]]].
  - unfold mapPh. now intros ->.
  - unfold mapPh. intros H.
    rewrite (startsWith_exclusive v "10.5" "10.0"), H; easy.
  - unfold mapPh. intros H.
    rewrite (startsWith_exclusive v "11.6" "10.0"),
      (startsWith_exclusive v "11.6" "10.5"), H; easy.
  - unfold mapPh. now intros -> -> ->.
  - reflexivity.
  - intros Hsec. pose proof Hsec as (d & props & -> & Hd & Hall).
    destruct (setAt_writes_through h d "indigo_control.ph_window"
                "indigo_control" "ph_window" (VStr (mapPh v)) Hsec)
      as (h' & r & l & p & Hset & _ & _ & Hget & Hl);
      [reflexivity | compute_done | discriminate |].
    exists h', (VRef r). unfold ph_onChange, onSelect, field_of.
    rewrite Hset. split; [reflexivity|].
    rewrite Hget. simpl. unfold getp, read. rewrite Hl. simpl.
    now rewrite lookup_insert_eq.
Qed.

Lemma mapPh_normalises_witness :
  mapPh "10.5–11.5 (mono-enolate)" = "10.5–11.5" /\
  mapPh "Other" = "Other" /\
  exists h' state',
    ph_onChange module_heap (VRef DEFAULT_STATE) "10.5–11.5 (mono-enolate)"
      = Ret (h', state') /\
    field_of h' state' "indigo_control" "ph_window" = Ret (VStr "10.5–11.5").
Proof.
  destruct (mapPh_normalises "10.5–11.5 (mono-enolate)" module_heap
              (VRef DEFAULT_STATE)) as (_ & H105 & _ & _ & _ & Hst).
  destruct (mapPh_normalises "Other" module_heap (VRef DEFAULT_STATE))
    as (_ & _ & _ & Hother & _).
  split; [apply H105; reflexivity|].
  split; [apply Hother; reflexivity|].
  apply Hst, has_sectionsb_true. reflexivity.
Defined.

End WizardFacts.

(** ** The views *)

Section ViewFacts.
Import Nav Views.

(** X1: every step is listed once in [STEPS]: the header always finds a
    label, and the step number it shows lies between 1 and 7 and is the
    position at which [STEPS] holds the step (so different steps show
    different numbers, and [findIndex] never gives -1). *)
Theorem header_total (s : StepKey) :
  is_Some (step_label s) /\
  1 <= step_number s <= Z.of_nat (length STEPS) /\
  step_at (step_number s - 1) = Some s.
Proof.
  repeat split.
  - destruct s; eexists; reflexivity.
  - destruct s; vm_compute; discriminate.
  - destruct s; vm_compute; discriminate.
  - destruct s; reflexivity.
Qed.

(** X2: [next] moves one position forward and [back] one position
    backward, except at the ends; from every step other than the first,
    [back] then [next] returns to it; six [next] reach the last step and
    six [back] the first, from anywhere. *)
Theorem next_back_positions (s : StepKey) :
  (s <> last_step -> step_number (next s) = step_number s + 1) /\
  (s <> first_step -> step_number (back s) = step_number s - 1) /\
  (s <> first_step -> next (back s) = s) /\
  Nat.iter 6 next s = last_step /\
  Nat.iter 6 back s = first_step.
Proof.
  repeat split; try (intros Hs); destruct s; try reflexivity;
    now contradiction Hs.
Qed.

Lemma next_back_positions_witness :
  step_number (next shade) = 4 /\ next (back shade) = shade.
Proof.
  destruct (next_back_positions shade) as (Hn & _ & Hb & _).
  split; [rewrite Hn; [reflexivity | discriminate] | apply Hb; discriminate].
Defined.

(** X3: what the key handler never does.  A key other than Tab leaves
    the step; a key other than Escape leaves the advanced panel, the
    accordion and the why-panel; no key closes the palette, and [close()]
    is never called; outside the container the handler does nothing. *)
Theorem onKey_frame (s : StepKey) (e : KeyboardEvent) (n : NavigationState) :
  (ekey e <> "Tab" -> step (fst (onKey s e n)) = step n) /\
  (ekey e <> "Escape" ->
     advancedOpen (fst (onKey s e n)) = advancedOpen n /\
     openAccordion (fst (onKey s e n)) = openAccordion n /\
     whyOpen (fst (onKey s e n)) = whyOpen n) /\
  (paletteOpen n = true -> paletteOpen (fst (onKey s e n)) = true) /\
  ~ PaletteClose ∈ snd (onKey s e n) /\
  (within e = false -> onKey s e n = (n, [])).
Proof.
  destruct e as [k c m sh w]. unfold onKey, when. simpl.
  destruct w; simpl.
  2:{ repeat split; auto. apply not_elem_of_nil. }
  destruct (bool_decide (toLowerCase k = "k"));
    destruct (bool_decide (toLowerCase k = "s"));
    destruct (bool_decide_reflect (k = "Escape")) as [He|He];
    destruct (bool_decide_reflect (k = "Tab")) as [Ht|Ht];
    destruct c, m, sh; simpl;
    (split; [try (intros H; now contradiction H); reflexivity|]);
    (split; [try (intros H; now contradiction H); auto|]);
    (split; [auto|]);
    (split; [|discriminate]);
    rewrite ?elem_of_cons, ?elem_of_nil; intuition discriminate.
Qed.

Lemma onKey_frame_witness :
  step (fst (onKey warp (key_event "Escape" false)
               {| step := warp; advancedOpen := true; openAccordion := None;
                  whyOpen := false; paletteOpen := true |})) = warp /\
  paletteOpen (fst (onKey warp (key_event "Tab" false)
               {| step := warp; advancedOpen := true; openAccordion := None;
                  whyOpen := false; paletteOpen := true |})) = true.
Proof.
  split.
  - destruct (onKey_frame warp (key_event "Escape" false)
      {| step := warp; advancedOpen := true; openAccordion := None;
         whyOpen := false; paletteOpen := true |}) as (H & _).
    apply H. discriminate.
  - destruct (onKey_frame warp (key_event "Tab" false)
      {| step := warp; advancedOpen := true; openAccordion := None;
         whyOpen := false; paletteOpen := true |}) as (_ & _ & H & _).
    apply H. reflexivity.
Defined.


(** X4: with Ctrl or Meta held inside the container, [k] in either case
    opens the palette and [s] in either case writes the document at once;
    both suppress the default action and change nothing else.  Without
    the modifier the two letters do nothing.  A palette item picked after
    the shortcut leaves the wizard on that step with the palette closed
    and the advanced panel, the accordion and the why-panel as they
    were. *)
Theorem shortcuts (s k : StepKey) (e : KeyboardEvent) (n : NavigationState) :
  within e = true ->
  (ctrlKey e || metaKey e = true ->
     (toLowerCase (ekey e) = "k" ->
        onKey s e n = (showModal n, [PreventDefault; PaletteShowModal])) /\
     (toLowerCase (ekey e) = "s" ->
        onKey s e n = (n, [PreventDefault; StorageWriteNow]))) /\
  (ctrlKey e || metaKey e = false ->
     toLowerCase (ekey e) = "k" \/ toLowerCase (ekey e) = "s" ->
     onKey s e n = (n, [])) /\
  toLowerCase "K" = "k" /\ toLowerCase "S" = "s" /\
  palette_pick k (showModal n) = palette_pick k n /\
  step (palette_pick k n) = k /\ paletteOpen (palette_pick k n) = false /\
  advancedOpen (palette_pick k n) = advancedOpen n /\
  openAccordion (palette_pick k n) = openAccordion n /\
  whyOpen (palette_pick k n) = whyOpen n.
Proof.
  destruct e as [key c m sh w]; simpl. intros ->.
  assert (Hnot : forall x, toLowerCase key = x -> (x = "k" \/ x = "s") ->
            key <> "Escape" /\ key <> "Tab").
  { intros x Hx Hor. split; intros ->; vm_compute in Hx; subst x;
      destruct Hor; discriminate. }
  split; [|split; [|now repeat split]].
  - intros Hmod. split; intros Hk;
      destruct (Hnot _ Hk) as [He Ht]; auto;
      unfold onKey, when; simpl; rewrite Hmod, Hk; simpl;
      rewrite !bool_decide_eq_false_2 by assumption; reflexivity.
  - intros Hmod Hk. unfold onKey, when; simpl. rewrite Hmod. simpl.
    assert (key <> "Escape" /\ key <> "Tab") as [He Ht].
    { destruct Hk as [Hk | Hk]; eapply Hnot; eauto. }
    rewrite !bool_decide_eq_false_2 by assumption. reflexivity.
Qed.

Lemma shortcuts_witness :
  onKey warp {| ekey := "K"; ctrlKey := false; metaKey := true;
                shiftKey := false; within := true |}
        {| step := warp; advancedOpen := false; openAccordion := None;
           whyOpen := false; paletteOpen := false |}
  = ({| step := warp; advancedOpen := false; openAccordion := None;
        whyOpen := false; paletteOpen := true |},
     [PreventDefault; PaletteShowModal]).
Proof.
  destruct (shortcuts warp etp
              {| ekey := "K"; ctrlKey := false; metaKey := true;
                 shiftKey := false; within := true |}
              {| step := warp; advancedOpen := false; openAccordion := None;
                 whyOpen := false; paletteOpen := false |} eq_refl)
    as ((Hk & _) & _); [reflexivity|].
  apply Hk. reflexivity.
Defined.

(** X5: the accordions share one state cell.  A click on the accordion
    of a step flips that accordion and leaves every other one shown
    closed; changing the step does not touch the cell; Escape closes
    whichever is open. *)
Theorem accordion_exclusive (k k' : string) (s : StepKey)
    (n : NavigationState) :
  accordion_open k (accordion_toggle k n) = negb (accordion_open k n) /\
  (k' <> k -> accordion_open k' (accordion_toggle k n) = false) /\
  accordion_open k (setStep s n) = accordion_open k n /\
  accordion_open k (rail_click s n) = accordion_open k n /\
  accordion_open k (fst (onKey s (key_event "Escape" false) n)) = false.
Proof.
  unfold accordion_toggle, rail_click, setStep, accordion_open. simpl.
  repeat split.
  - destruct (bool_decide_reflect (openAccordion n = Some k)) as [H|H]; simpl.
    + reflexivity.
    + now rewrite bool_decide_eq_true_2.
  - intros Hne. apply bool_decide_eq_false_2.
    destruct (bool_decide (openAccordion n = Some k)); congruence.
Qed.

Lemma accordion_exclusive_witness :
  accordion_open "warp"
    (accordion_toggle "indigo"
       {| step := indigo; advancedOpen := false; openAccordion := Some "warp";
          whyOpen := false; paletteOpen := false |}) = false.
Proof.
  destruct (accordion_exclusive "indigo" "warp" indigo
    {| step := indigo; advancedOpen := false; openAccordion := Some "warp";
       whyOpen := false; paletteOpen := false |}) as (_ & H & _).
  apply H. discriminate.
Defined.

End ViewFacts.

(** ** More on the helpers of the form fields *)

Section MoreUtilsFacts.
Import Store Utils.

Lemma filter_all {A} (P : A -> Prop) `{forall x, Decision (P x)} (l : list A) :
  (forall x, x ∈ l -> P x) -> filter P l = l.
Proof.
  induction l as [|a l IH]; intros Hall; [reflexivity|].
  rewrite filter_cons, decide_True by (apply Hall; left).
  f_equal. apply IH. intros x Hx. apply Hall. now right.
Qed.

(** X6: whatever list comes in, the list [toggle] hands on holds no
    option twice; the toggled option is in it exactly when it was not
    selected before, and every other option is in it exactly when it was
    selected. *)
Theorem toggle_clean (values : list string) (o x : string) :
  NoDup (toggle values o) /\
  (o ∈ toggle values o <-> ~ o ∈ values) /\
  (x <> o -> x ∈ toggle values o <-> x ∈ values).
Proof.
  split; [|split].
  - destruct (decide (o ∈ values)) as [Ho|Ho].
    + rewrite toggle_present by exact Ho.
      apply NoDup_filter, new_Set_NoDup.
    + rewrite toggle_absent by exact Ho.
      apply NoDup_app. split; [apply new_Set_NoDup|].
      split; [|apply NoDup_singleton].
      intros y Hy ->%list_elem_of_singleton. apply Ho.
      rewrite new_Set_elem in Hy. exact Hy.
  - rewrite toggle_elem. tauto.
  - intros Hx. rewrite toggle_elem.
    destruct (decide (o ∈ values)); tauto.
Qed.

Lemma toggle_clean_witness :
  "pH" ∈ toggle ["pH"; "EC"; "pH"] "COD" <-> "pH" ∈ ["pH"; "EC"; "pH"].
Proof.
  destruct (toggle_clean ["pH"; "EC"; "pH"] "COD" "pH") as (_ & _ & H).
  apply H. discriminate.
Defined.

(** X7: toggling twice, on a list without repetition: an option that
    was not selected is added and removed again, and the list is the one
    before; an option that was selected comes back at the end of the
    list. *)
Theorem toggle_twice (values : list string) (o : string) :
  NoDup values ->
  (~ o ∈ values -> toggle (toggle values o) o = values) /\
  (o ∈ values ->
     toggle (toggle values o) o = filter (fun x => x <> o) values ++ [o]).
Proof.
  intros Hnd. split; intros Ho.
  - rewrite (toggle_absent values o Ho), (new_Set_id values Hnd).
    assert (Hnd' : NoDup (values ++ [o])).
    { apply NoDup_app. repeat split; [exact Hnd | | apply NoDup_singleton].
      intros y Hy ->%list_elem_of_singleton. contradiction. }
    rewrite toggle_present by (apply elem_of_app; right; left).
    rewrite (new_Set_id _ Hnd'). unfold Set_delete.
    rewrite filter_app, filter_cons, decide_False by (now intros H).
    rewrite filter_nil, app_nil_r. apply filter_all.
    intros y Hy ->. contradiction.
  - rewrite (toggle_present values o Ho), (new_Set_id values Hnd).
    unfold Set_delete.
    assert (Hnot : ~ o ∈ filter (fun x => x <> o) values).
    { rewrite list_elem_of_filter. tauto. }
    rewrite toggle_absent by exact Hnot.
    now rewrite new_Set_id by (now apply NoDup_filter).
Qed.

Lemma toggle_twice_witness :
  toggle (toggle ["pH"; "EC"; "COD"] "EC") "EC" = ["pH"; "COD"; "EC"] /\
  toggle (toggle ["pH"; "COD"] "EC") "EC" = ["pH"; "COD"].
Proof.
  split.
  - destruct (toggle_twice ["pH"; "EC"; "COD"] "EC") as [_ H];
      [compute_done|]. rewrite H; [reflexivity | compute_done].
  - destruct (toggle_twice ["pH"; "COD"] "EC") as [H _];
      [compute_done|]. apply H. compute_done.
Defined.

(** X8: [mapPh] is a normalisation: applied to its own result it
    changes nothing, and its result is one of the three ranges or the
    text it was given. *)
Theorem mapPh_idempotent (v : string) :
  mapPh (mapPh v) = mapPh v /\
  (mapPh v = "10.0–10.4" \/ mapPh v = "10.5–11.5" \/
   mapPh v = "11.6–12.0" \/ mapPh v = v).
Proof.
  unfold mapPh.
  destruct (startsWith v "10.0") eqn:H1; [split; [reflexivity | auto]|].
  destruct (startsWith v "10.5") eqn:H2; [split; [reflexivity | auto]|].
  destruct (startsWith v "11.6") eqn:H3; [split; [reflexivity | auto]|].
  rewrite H1, H2, H3. auto.
Qed.

End MoreUtilsFacts.

(** ** Percentages *)

Section PercentFacts.
Import Num Store Utils Percent.

Lemma num_lt_irrefl a : num_lt a a = false.
Proof.
  destruct a as [| [] | neg m e]; try reflexivity.
  unfold num_lt. apply Z.ltb_irrefl.
Qed.

Lemma num_lt_asym a b : num_lt a b = true -> num_lt b a = false.
Proof.
  destruct a as [| [] | na ma ea], b as [| [] | nb mb eb];
    try reflexivity; try discriminate.
  unfold num_lt. rewrite (Z.min_comm eb ea).
  intros H%Z.ltb_lt. apply Z.ltb_ge. lia.
Qed.

(** [clampPct] on a number, in one case distinction. *)
Lemma clampPct_cases x :
  clampPct (VNum x)
  = VNum (if is_NaN x then NaN
          else if num_lt hundred x then hundred
          else if num_lt zero x then x
          else zero).
Proof.
  unfold clampPct, Math_min. f_equal.
  destruct (is_NaN x) eqn:Hn; [now destruct x|].
  change (is_NaN hundred || false) with false. cbv iota.
  destruct (num_lt hundred x) eqn:H100; [reflexivity|].
  assert (Hmin : (if num_lt x hundred then x
                  else if is_neg_zero hundred then hundred else x) = x)
    by (destruct (num_lt x hundred); reflexivity).
  rewrite Hmin. unfold Math_max. rewrite Hn. change (is_NaN zero || false) with false.
  cbv iota. destruct (num_lt zero x) eqn:H0; [reflexivity|].
  destruct (num_lt x zero); reflexivity.
Qed.

(** X9: [clampPct] gives [undefined] for anything that is not a number,
    hands [NaN] on as [NaN], and for every other number gives a number
    from 0 to 100 that is never the negative zero. *)
Theorem clampPct_range (v : val) :
  ((forall x, v <> VNum x) -> clampPct v = VUndef) /\
  (v = VNum NaN -> clampPct v = VNum NaN) /\
  (forall x, v = VNum x -> is_NaN x = false ->
     exists r, clampPct v = VNum r /\ in_range r = true /\
               is_neg_zero r = false).
Proof.
  split; [|split].
  - intros Hv. destruct v; try reflexivity. now contradiction (Hv n).
  - now intros ->.
  - intros x -> Hn. rewrite clampPct_cases, Hn. eexists. split; [reflexivity|].
    unfold in_range.
    destruct (num_lt hundred x) eqn:H100; [split; reflexivity|].
    destruct (num_lt zero x) eqn:H0; [|split; reflexivity].
    rewrite Hn, H100, (num_lt_asym _ _ H0). split; [reflexivity|].
    destruct x as [| [] | [] m e]; try reflexivity; try discriminate.
    simpl. destruct (m =? 0)%N eqn:Hm; [|reflexivity].
    apply N.eqb_eq in Hm. subst m. unfold num_lt, scaled, zero in H0.
    apply Z.ltb_lt in H0. simpl in H0. lia.
Qed.

Lemma clampPct_range_witness :
  exists r, clampPct (toNum "150") = VNum r /\ in_range r = true.
Proof.
  destruct (clampPct_range (toNum "150")) as (_ & _ & H).
  destruct (H (Decimal false 150 0) eq_refl eq_refl) as (r & Hr & Hin & _).
  exists r. split; assumption.
Defined.

(** X10: a second [clampPct] changes nothing; a number above 100 becomes
    100, a number above 0 and not above 100 stays as it is, and every
    other number (negative, or a zero of either sign) becomes 0. *)
Theorem clampPct_idempotent (v : val) (x : number) :
  clampPct (clampPct v) = clampPct v /\
  (num_lt hundred x = true -> clampPct (VNum x) = VNum hundred) /\
  (num_lt zero x = true -> num_lt hundred x = false ->
     clampPct (VNum x) = VNum x) /\
  (is_NaN x = false -> num_lt zero x = false -> clampPct (VNum x) = VNum zero).
Proof.
  split; [|split; [|split]].
  - destruct v as [| | | y | |]; try reflexivity.
    rewrite (clampPct_cases y).
    destruct (is_NaN y) eqn:Hn; [reflexivity|].
    destruct (num_lt hundred y) eqn:H100; [reflexivity|].
    destruct (num_lt zero y) eqn:H0; [|reflexivity].
    rewrite clampPct_cases. now rewrite Hn, H100, H0.
  - intros H. rewrite clampPct_cases, H. now destruct x as [| [] |].
  - intros H0 H100. rewrite clampPct_cases, H0, H100. now destruct x.
  - intros Hn H0. rewrite clampPct_cases, Hn, H0.
    destruct (num_lt hundred x) eqn:H100; [|reflexivity].
    destruct x as [| [] | na m e]; try discriminate.
    exfalso. unfold num_lt, scaled, hundred, zero in *. simpl in *.
    apply Z.ltb_lt in H100. apply Z.ltb_ge in H0.
    destruct na.
    + assert (0 <= Z.of_N m * 10 ^ (e - Z.min 0 e)).
      { apply Z.mul_nonneg_nonneg; [lia|]. apply Z.pow_nonneg. lia. }
      assert (0 <= 100 * 10 ^ (0 - Z.min 0 e)).
      { apply Z.mul_nonneg_nonneg; [lia|]. apply Z.pow_nonneg. lia. }
      lia.
    + assert (0 <= 100 * 10 ^ (0 - Z.min 0 e)).
      { apply Z.mul_nonneg_nonneg; [lia|]. apply Z.pow_nonneg. lia. }
      rewrite Z.mul_0_l in H0. lia.
Qed.

Lemma clampPct_idempotent_witness :
  clampPct (toNum "150") = VNum hundred /\
  clampPct (toNum "42") = VNum (Decimal false 42 0) /\
  clampPct (toNum "-5") = VNum zero.
Proof.
  destruct (clampPct_idempotent VUndef (Decimal false 150 0)) as (_ & H1 & _).
  destruct (clampPct_idempotent VUndef (Decimal false 42 0)) as (_ & _ & H2 & _).
  destruct (clampPct_idempotent VUndef (Decimal true 5 0)) as (_ & _ & _ & H3).
  split; [apply H1; reflexivity|].
  split; [apply H2; reflexivity | apply H3; reflexivity].
Defined.


Lemma unsigned_decimal_digits neg s :
  all_digits s = true ->
  unsigned_decimal neg s = Some (Decimal neg (decimal_value 0 s) 0, estr).
Proof.
  destruct s as [|c r]; [discriminate|]. unfold all_digits. intros H.
  pose proof (take_digits_all _ 0%N 0%nat H) as Htd.
  simpl in H. apply andb_true_iff in H as [Hc _].
  assert (String.prefix "Infinity" (String c r) = false) as Hpre.
  { destruct (is_digit_code c Hc) as [[Hlo Hhi] _].
    assert (Hd : ((48 <=? code c) && (code c <=? 57))%N = true)
      by (apply andb_true_iff; split; apply N.leb_le; assumption).
    clear - Hd.
    destruct c as [[] [] [] [] [] [] [] []]; try discriminate Hd; reflexivity. }
  unfold unsigned_decimal. rewrite Hpre, Htd. reflexivity.
Qed.

Lemma MV_negative_digits s :
  all_digits s = true ->
  MV (String "-" s) = Decimal true (decimal_value 0 s) 0.
Proof.
  intros H. unfold MV.
  change (skip_ws (String "-" s)) with (String "-"%char s).
  unfold numeric_literal.
  change (non_decimal (String "-" s)) with (@None (number * string)).
  cbv beta iota. now rewrite (unsigned_decimal_digits true s H).
Qed.

(** The clamp does not see the rounding of a whole number: below [2^53]
    there is none, and from there on both the number and what it rounds
    to lie beyond 100, or below 0. *)
Lemma clampPct_round_int neg m :
  clampPct (VNum (RoundMVResult (Decimal neg m 0)))
  = clampPct (VNum (Decimal neg m 0)).
Proof.
  destruct (Z.ltb_spec (Z.of_N m) (2 ^ 53)) as [Hs | Hl];
    [now rewrite round_small_int|].
  assert (H53 : 100 < 2 ^ 53) by reflexivity.
  assert (Hn : clampPct (VNum (Decimal neg m 0))
               = VNum (if neg then zero else hundred)).
  { rewrite clampPct_cases. cbn [is_NaN].
    unfold num_lt, hundred, zero, scaled. rewrite !Z.min_id, !Z.sub_diag.
    change (10 ^ 0) with 1. rewrite !Z.mul_1_r.
    change (Z.of_N 100) with 100. change (Z.of_N 0) with 0.
    destruct neg.
    - destruct (Z.ltb_spec 100 (- Z.of_N m)); [lia|].
      destruct (Z.ltb_spec 0 (- Z.of_N m)); [lia | reflexivity].
    - destruct (Z.ltb_spec 100 (Z.of_N m)); [reflexivity | lia]. }
  rewrite Hn.
  destruct (round_large_int neg m Hl) as [-> | [-> | (u & -> & Hu)]].
  - rewrite clampPct_cases. now destruct neg.
  - exact Hn.
  - rewrite clampPct_cases. cbn [is_NaN].
    assert (H2 : 0 < 2 ^ 1074) by (apply Z.pow_pos_nonneg; lia).
    assert (H5 : 0 < 5 ^ 1074) by (apply Z.pow_pos_nonneg; lia).
    assert (H10 : 10 ^ 1074 = 2 ^ 1074 * 5 ^ 1074).
    { change 10 with (2 * 5). apply Z.pow_mul_l. }
    unfold num_lt, hundred, zero, scaled.
    change (Z.min 0 (-1074)) with (-1074).
    change (0 - -1074) with 1074. change (-1074 - -1074) with 0.
    change (10 ^ 0) with 1. rewrite !Z.mul_1_r.
    rewrite Z2N.id by nia.
    change (Z.of_N 100) with 100. change (Z.of_N 0) with 0.
    rewrite H10, Z.mul_0_l.
    generalize dependent (2 ^ 1074). generalize dependent (5 ^ 1074).
    generalize dependent (2 ^ 53). intros c53 _ H53 c5 H5p c2 H2p Hu.
    destruct neg.
    + destruct (Z.ltb_spec (100 * (c2 * c5)) (- (u * c5))); [nia|].
      destruct (Z.ltb_spec 0 (- (u * c5))); [nia | reflexivity].
    + destruct (Z.ltb_spec (100 * (c2 * c5)) (u * c5)); [reflexivity | nia].
Qed.

(** X11: what a percentage field stores.  Empty text gives [undefined];
    a run of digits gives the number it denotes, or 100 if that is more;
    a run of digits after a minus sign gives 0. *)
Theorem pct_value_digits (s : string) :
  pct_value estr = VUndef /\
  (all_digits s = true ->
     pct_value s = VNum (Decimal false (N.min (decimal_value 0 s) 100) 0) /\
     pct_value (String "-" s) = VNum zero).
Proof.
  split; [reflexivity|]. intros Hd. unfold pct_value, toNum.
  assert (s <> estr) as Hs by (intros ->; discriminate).
  rewrite !bool_decide_eq_false_2 by (assumption || discriminate).
  unfold Number. rewrite (MV_digits s Hd), (MV_negative_digits s Hd).
  rewrite !clampPct_round_int, !clampPct_cases.
  set (v := decimal_value 0 s). simpl is_NaN. cbv iota.
  unfold num_lt, hundred, zero, scaled. rewrite !Z.min_id, !Z.sub_diag.
  change (10 ^ 0) with 1. rewrite !Z.mul_1_r.
  change (Z.of_N 100) with 100. change (Z.of_N 0) with 0.
  split.
  - destruct (Z.ltb_spec 100 (Z.of_N v)) as [H1|H1].
    + now rewrite N.min_r by lia.
    + rewrite N.min_l by lia.
      destruct (Z.ltb_spec 0 (Z.of_N v)) as [H0|H0]; [reflexivity|].
      now replace v with 0%N by lia.
  - destruct (Z.ltb_spec 100 (- Z.of_N v)) as [H1|H1]; [lia|].
    destruct (Z.ltb_spec 0 (- Z.of_N v)) as [H0|H0]; [lia | reflexivity].
Qed.

Lemma pct_value_digits_witness :
  pct_value "250" = VNum (Decimal false 100 0) /\
  pct_value "60" = VNum (Decimal false 60 0) /\
  pct_value "-7" = VNum zero.
Proof.
  destruct (pct_value_digits "250") as (_ & H1).
  destruct (pct_value_digits "60") as (_ & H2).
  destruct (pct_value_digits "7") as (_ & H3).
  split; [apply H1; reflexivity|].
  split; [apply H2; reflexivity | apply H3; reflexivity].
Defined.

End PercentFacts.

(** ** The autosave effect over a run of changes *)

Section DebounceFacts.
Import Autosave Debounce.
Context {Doc : Type}.
Implicit Types (s : scheduler Doc) (d : Doc).







End DebounceFacts.

Section LifecycleRuns.
Import Autosave Lifecycle.
Context {Doc : Type}.

(** X12: what the autosave writes in the running component, for every
    run of renders.  A component mounted at [t0] with the document [d0]
    and rendered again, first at [t1], ends unmounted, and all it ever
    writes is [d0] at [t0 + 500], and that only if [t1] is not earlier:
    no document of a later render reaches the storage slot, whatever
    the renders are and however long one waits. *)
Theorem autosave_writes_first_document (t0 t1 T : Z) (d0 : Doc)
    (c1 : commit Doc) (evs : list (Z * commit Doc)) :
  mounted (live ((t1, c1) :: evs) (mount t0 d0)) = false /\
  storage (advance T (effects (live ((t1, c1) :: evs) (mount t0 d0))))
  = (if decide (t0 + 500 <= t1) then [(t0 + 500, d0)] else []).
Proof. exact (live_writes t0 t1 T d0 c1 evs). Qed.

End LifecycleRuns.



(** ** More on [setAt] *)

Section SetAtFacts.
Import Store Prim.
Implicit Types (h : heap) (c : cell) (v x : val) (k : string) (l m : nat).

Lemma reach_restrict h e l m :
  heap_closed h -> (l < length h)%nat -> reach (h ++ e) l m -> reach h l m.
Proof.
  intros Hc Hlt Hr. induction Hr as [l | l c l' x Hl Hh Hr IH]; [constructor|].
  rewrite lookup_app_l in Hl by exact Hlt.
  eapply reach_step; [exact Hl | exact Hh |].
  apply IH. exact (Hc l c (VRef l') Hl Hh).
Qed.

(** X15: a path of one segment makes [setAt] a pure update: the store it
    was given is a prefix of the new one, untouched, and the object it
    returns is the given one with the property set. *)
Theorem setAt_one_segment h d k v props :
  h !! d = Some (CObj props) -> no_dot k = true ->
  (k = "__proto__" -> is_Some (props !! k)) ->
  setAt h d k v = Ret (h ++ [CObj (<[k := v]> props)], length h).
Proof.
  intros Hd Hk Hp. unfold setAt, read. rewrite Hd, (split_no_dot k Hk).
  unfold mbind at 1, outcome_bind at 1. cbn [removelast List.last walk].
  change (spread (CObj props)) with (CObj props).
  rewrite (setp_intro (h ++ [CObj props]) (length h) k v props
             (CObj (<[k := v]> props))).
  - unfold mbind, outcome_bind. f_equal. f_equal.
    rewrite insert_app_r_alt, Nat.sub_diag by lia. reflexivity.
  - now rewrite lookup_app_r, Nat.sub_diag by lia.
  - unfold set_prop. destruct (props !! k) eqn:E; [reflexivity|].
    case_bool_decide as Hpr; [|reflexivity].
    destruct (Hp Hpr) as [w Hw]. congruence.
Qed.

(** X16: when the given object has nothing (or [null]) under the first
    segment of a longer path, [setAt] builds the whole branch from new
    objects: every object of the given store is as it was, and the object
    returned is the given one with a new object under the first segment. *)
Theorem setAt_fresh_branch h d path v h' r props k0 k1 ks :
  h !! d = Some (CObj props) ->
  split "." path = k0 :: k1 :: ks ->
  props !! k0 = None \/ props !! k0 = Some VUndef \/ props !! k0 = Some VNull ->
  setAt h d path v = Ret (h', r) ->
  r = length h /\
  (forall m, (m < length h)%nat -> h' !! m = h !! m) /\
  h' !! r = Some (CObj (<[k0 := VRef (S (length h))]> props)).
Proof.
  intros Hd Hsplit Hk0 (c & Hd' & -> & Hw)%setAt_Ret.
  assert (c = CObj props) as -> by congruence.
  rewrite Hsplit, removelast_cons in Hw by discriminate.
  change (spread (CObj props)) with (CObj props) in Hw.
  apply walk_cons_Ret in Hw as (p & Hcl & Hw).
  rewrite lookup_app_r, Nat.sub_diag in Hcl by lia. injection Hcl as <-.
  destruct Hw as [(l & Hl & _) | (_ & Hw)].
  { destruct Hk0 as [H|[H|H]]; congruence. }
  rewrite length_app in Hw. cbn [length] in Hw.
  replace (length h + 1)%nat with (S (length h)) in Hw by lia.
  assert (Hfresh : forall m, m <> S (length h) ->
            ~ reach (<[length h := CObj (<[k0 := VRef (S (length h))]> props)]>
                       ((h ++ [CObj props]) ++ [CObj ∅])) (S (length h)) m).
  { intros m Hm Hr. inversion Hr as [|? c' l' ? Hc' Hh]; subst; [congruence|].
    rewrite list_lookup_insert_ne in Hc' by lia.
    rewrite lookup_app_r in Hc' by (rewrite length_app; simpl; lia).
    rewrite length_app in Hc'. simpl in Hc'.
    replace (S (length h) - (length h + 1))%nat with 0%nat in Hc' by lia.
    injection Hc' as <-. destruct Hh as [k' Hk']. now rewrite lookup_empty in Hk'. }
  split; [reflexivity|]. split.
  - intros m Hm. rewrite (walk_frame _ _ _ _ _ _ m Hw).
    + rewrite list_lookup_insert_ne by lia.
      rewrite <- app_assoc. now apply lookup_app_l.
    + rewrite length_insert, !length_app. simpl. lia.
    + apply Hfresh. lia.
  - rewrite (walk_frame _ _ _ _ _ _ (length h) Hw).
    + apply list_lookup_insert_eq. rewrite !length_app. simpl. lia.
    + rewrite length_insert, !length_app. simpl. lia.
    + apply Hfresh. lia.
Qed.

Lemma walk_primitive h cur k ks lastk v p x :
  h !! cur = Some (CObj p) -> p !! k = Some x -> primitive x = true ->
  walk h cur (k :: ks) lastk v = assign_on_primitive (hd lastk ks).
Proof.
  intros Hcur Hk Hx. cbn [walk].
  assert (Hg : getp h cur k = Ret x).
  { unfold getp, read. rewrite Hcur. simpl. now rewrite Hk. }
  rewrite Hg. unfold mbind at 1, outcome_bind at 1.
  assert (Hn : nullish x = false) by (destruct x; try discriminate; reflexivity).
  rewrite Hn, (setp_same h cur k x p Hcur Hk).
  unfold mbind, outcome_bind. destruct x; try discriminate; reflexivity.
Qed.

(** X17: a path that leads through a boolean, a number or a string makes
    [setAt] throw: the loop steps onto the primitive value and the next
    assignment is to a property of it. *)
Theorem setAt_through_primitive h d path v props k0 k1 ks x :
  h !! d = Some (CObj props) ->
  split "." path = k0 :: k1 :: ks ->
  props !! k0 = Some x -> primitive x = true -> k1 <> "__proto__" ->
  setAt h d path v = Throw.
Proof.
  intros Hd Hsplit Hk0 Hx Hk1. unfold setAt, read.
  rewrite Hd, Hsplit, removelast_cons, last_cons by discriminate.
  change (spread (CObj props)) with (CObj props).
  unfold mbind at 1, outcome_bind at 1.
  rewrite (walk_primitive _ _ k0 _ _ v props x); [| | exact Hk0 | exact Hx].
  - assert (Hhd : hd (List.last (k1 :: ks) estr) (removelast (k1 :: ks)) = k1)
      by (destruct ks; reflexivity).
    rewrite Hhd. unfold assign_on_primitive.
    now rewrite bool_decide_eq_false_2.
  - now rewrite lookup_app_r, Nat.sub_diag by lia.
Qed.

(** X18: in a closed store, [setAt] on a finite document never writes the
    object it was given: the copy it makes of the root is all it changes
    at the top. *)
Theorem setAt_spares_root h d path v h' r :
  heap_closed h -> finite h (VRef d) ->
  setAt h d path v = Ret (h', r) ->
  r <> d /\ h' !! d = h !! d.
Proof.
  intros Hc Hf (c & Hd & -> & Hw)%setAt_Ret.
  pose proof (lookup_lt_Some _ _ _ Hd) as Hlt.
  split; [lia|].
  rewrite (walk_frame _ _ _ _ _ _ d Hw).
  - now apply lookup_app_l.
  - rewrite length_app. simpl. lia.
  - intros Hr. inversion Hr as [|? c' l' ? Hc' Hh Hr']; subst; [lia|].
    rewrite lookup_app_r, Nat.sub_diag in Hc' by lia. injection Hc' as <-.
    apply (proj1 (holds_spread c (VRef l'))) in Hh.
    apply (finite_no_cycle h (VRef d) Hf d c l' eq_refl Hd Hh).
    apply (reach_restrict h [spread c]); [exact Hc | | exact Hr'].
    exact (Hc d c (VRef l') Hd Hh).
Qed.

End SetAtFacts.

(** ** A stored snapshot as the document *)

Section StartupFacts.
Import Nav Store Utils Wizard Startup.
Implicit Types (h : heap) (v : val) (j : json).

Lemma build_JArr items h :
  build (JArr items) h
  = let '(h1, vs) := build_items items h in (h1 ++ [CArr vs], VRef (length h1)).
Proof. reflexivity. Qed.

Lemma build_JObj members h :
  build (JObj members) h
  = let '(h1, props) := build_members members h in
    (h1 ++ [CObj props], VRef (length h1)).
Proof. reflexivity. Qed.

Lemma build_items_cons x r h :
  build_items (x :: r) h
  = let '(h1, v) := build x h in
    let '(h2, vs) := build_items r h1 in (h2, v :: vs).
Proof. reflexivity. Qed.

Lemma build_members_cons k x r h :
  build_members ((k, x) :: r) h
  = let '(h1, v) := build x h in
    let '(h2, m) := build_members r h1 in
    (h2, match m !! k with Some _ => m | None => <[k := v]> m end).
Proof. reflexivity. Qed.

(** Induction on JSON values, through the lists they hold. *)
Lemma json_induction (P : json -> Prop) :
  P JNull -> (forall b, P (JBool b)) -> (forall n, P (JNum n)) ->
  (forall s, P (JStr s)) ->
  (forall items, Forall P items -> P (JArr items)) ->
  (forall members, Forall (fun kx => P kx.2) members -> P (JObj members)) ->
  forall j, P j.
Proof.
  intros HN HB HU HS HA HO.
  fix IH 1. intros [| b | n | s | items | members].
  - exact HN.
  - apply HB.
  - apply HU.
  - apply HS.
  - apply HA. induction items as [|x r IHr]; constructor; [apply IH | exact IHr].
  - apply HO. induction members as [|[k x] r IHr]; constructor;
      [apply IH | exact IHr].
Qed.

(** [JSON.parse] only adds objects to the store. *)
Lemma build_extends j : forall h, exists e, (build j h).1 = h ++ e.
Proof.
  induction j as [| b | n | s | items IH | members IH] using json_induction;
    intros h; try (exists []; simpl; now rewrite app_nil_r).
  - rewrite build_JArr.
    assert (Hit : forall h, exists e, (build_items items h).1 = h ++ e).
    { clear h. induction IH as [|x r Hx _ IHr]; intros h.
      - exists []. simpl. now rewrite app_nil_r.
      - rewrite build_items_cons. destruct (Hx h) as [e1 He1].
        destruct (build x h) as [h1 v]. simpl in He1. subst h1.
        destruct (IHr (h ++ e1)) as [e2 He2].
        destruct (build_items r (h ++ e1)) as [h2 vs]. simpl in He2. subst h2.
        exists (e1 ++ e2). simpl. now rewrite app_assoc. }
    destruct (Hit h) as [e He]. destruct (build_items items h) as [h1 vs].
    simpl in He. subst h1. exists (e ++ [CArr vs]). simpl. now rewrite app_assoc.
  - rewrite build_JObj.
    assert (Hit : forall h, exists e, (build_members members h).1 = h ++ e).
    { clear h. induction IH as [|[k x] r Hx _ IHr]; intros h.
      - exists []. simpl. now rewrite app_nil_r.
      - rewrite build_members_cons. destruct (Hx h) as [e1 He1]. simpl in He1.
        destruct (build x h) as [h1 v]. simpl in He1. subst h1.
        destruct (IHr (h ++ e1)) as [e2 He2].
        destruct (build_members r (h ++ e1)) as [h2 m]. simpl in He2. subst h2.
        exists (e1 ++ e2). simpl. now rewrite app_assoc. }
    destruct (Hit h) as [e He]. destruct (build_members members h) as [h1 m].
    simpl in He. subst h1. exists (e ++ [CObj m]). simpl. now rewrite app_assoc.
Qed.

(** What [JSON.parse] returns for a value: an object for a JSON object,
    and for nothing else. *)
Lemma build_object j h :
  let '(h', v) := build j h in
  if is_JObj j
  then exists l p, v = VRef l /\ h' !! l = Some (CObj p)
  else forall l p, v = VRef l -> h' !! l = Some (CObj p) -> False.
Proof.
  destruct j as [| b | n | s | items | members]; simpl is_JObj; cbv iota;
    try (simpl; intros l p [=]).
  - rewrite build_JArr. destruct (build_items items h) as [h1 vs].
    intros l p [= <-]. now rewrite lookup_app_r, Nat.sub_diag by lia.
  - rewrite build_JObj. destruct (build_members members h) as [h1 m].
    exists (length h1), m. split; [reflexivity|].
    now rewrite lookup_app_r, Nat.sub_diag by lia.
Qed.

Lemma build_closed_val j h :
  let '(h', v) := build j h in val_closed h' v.
Proof.
  destruct j as [| b | n | s | items | members]; try exact I.
  - rewrite build_JArr. destruct (build_items items h) as [h1 vs].
    simpl. rewrite length_app. simpl. lia.
  - rewrite build_JObj. destruct (build_members members h) as [h1 m].
    simpl. rewrite length_app. simpl. lia.
Qed.

(** The properties of the object built for the members [l]: under each
    name, what was built for the last member of that name, in a store that
    the rest of the build only extends. *)
Lemma build_members_lookup l : forall h k,
  let '(h2, m) := build_members l h in
  (exists e, h2 = h ++ e) /\
  match last_member k l with
  | None => m !! k = None
  | Some x =>
      exists h0 e, h2 = (build x h0).1 ++ e /\ m !! k = Some (build x h0).2
  end.
Proof.
  induction l as [|[k' x] r IH]; intros h k.
  - simpl. split; [exists []; now rewrite app_nil_r | apply lookup_empty].
  - rewrite build_members_cons. cbn [last_member].
    destruct (build_extends x h) as [e1 He1].
    destruct (build x h) as [h1 v] eqn:Hb. simpl in He1. subst h1.
    pose proof (IH (h ++ e1) k) as Hk. pose proof (IH (h ++ e1) k') as Hk'.
    destruct (build_members r (h ++ e1)) as [h2 m].
    destruct Hk as [[e2 ->] Hk]. destruct Hk' as [_ Hk'].
    split; [exists (e1 ++ e2); now rewrite app_assoc|].
    destruct (last_member k r) as [y|] eqn:Hy.
    + destruct Hk as (h0 & e & Hh & Hm). exists h0, e. split; [exact Hh|].
      destruct (m !! k') eqn:E; [exact Hm|].
      rewrite lookup_insert_ne; [exact Hm|]. intros ->. congruence.
    + destruct (decide (k' = k)) as [->|Hne].
      * rewrite Hk. exists h, e2. rewrite Hb. simpl. split; [reflexivity|].
        apply lookup_insert_eq.
      * destruct (m !! k') eqn:E; [exact Hk|].
        now rewrite lookup_insert_ne.
Qed.

(** X19: a stored snapshot that is a JSON object becomes a document with
    the seven sections exactly when, for each of the seven names, the last
    member of that name is itself a JSON object. *)
Theorem snapshot_sections raw members :
  raw <> estr ->
  let '(h, state) := initial_state (ReadText raw (Some (JObj members))) in
  has_sections h state <->
  forall s, s ∈ SECTIONS ->
    exists ms, last_member s members = Some (JObj ms).
Proof.
  intros Hraw. unfold initial_state. rewrite bool_decide_eq_false_2 by exact Hraw.
  rewrite build_JObj.
  pose proof (build_members_lookup members module_heap) as Hl.
  destruct (build_members members module_heap) as [h2 m].
  split.
  - intros (d & props & [= <-] & Hd & Hall) s Hs.
    rewrite lookup_app_r, Nat.sub_diag in Hd by lia. injection Hd as <-.
    destruct (Hall s Hs) as (l & p & Hm & Hp).
    destruct (Hl s) as [_ Hk].
    destruct (last_member s members) as [x|]; [|congruence].
    destruct Hk as (h0 & e & -> & Hv).
    pose proof (build_object x h0) as Ho. pose proof (build_closed_val x h0) as Hc.
    destruct (build x h0) as [h1 v]. simpl in *.
    assert (v = VRef l) as -> by congruence. simpl in Hc.
    rewrite <- app_assoc, lookup_app_l in Hp by exact Hc.
    destruct x; simpl in Ho; try (now destruct (Ho l p eq_refl Hp)). eauto.
  - intros Hall. exists (length h2), m. split; [reflexivity|].
    split; [now rewrite lookup_app_r, Nat.sub_diag by lia|].
    intros s Hs. destruct (Hall s Hs) as [ms Hms].
    destruct (Hl s) as [_ Hk]. rewrite Hms in Hk.
    destruct Hk as (h0 & e & -> & Hv).
    pose proof (build_object (JObj ms) h0) as Ho.
    destruct (build (JObj ms) h0) as [h1 v]. simpl in *.
    destruct Ho as (l & p & -> & Hp). exists l, p. split; [exact Hv|].
    rewrite <- app_assoc. now apply lookup_app_l_Some.
Qed.

End StartupFacts.

(** ** Reading and writing the sections *)

Section SectionFacts.
Import Nav Store Prim Utils Wizard Startup.
Implicit Types (h : heap) (v : val) (d l : nat).

Lemma section_of_SECTIONS step : section_of step ∈ SECTIONS.
Proof. destruct step; compute_done. Qed.

Lemma section_not_inherited s : s ∈ SECTIONS -> inherited s = false.
Proof.
  intros Hs. unfold SECTIONS in Hs.
  repeat (apply elem_of_cons in Hs as [->|Hs]; [reflexivity|]).
  now apply elem_of_nil in Hs.
Qed.

(** X20: a snapshot that is a JSON object without one of the sections (or
    with [null] for it) is taken as the document, and rendering the step
    of that section throws: the first read of [StepContent] is of a
    property of [undefined] or [null].  The read of [AdvancedPanel] is
    guarded by [?.] and gives the empty string, except for the indigo
    step, where it is not guarded and throws as well. *)
Theorem snapshot_missing_section raw members (step : StepKey) :
  raw <> estr ->
  last_member (section_of step) members = None \/
  last_member (section_of step) members = Some JNull ->
  let '(h, state) := initial_state (ReadText raw (Some (JObj members))) in
  StepContent_first_read step h state = Throw /\
  AdvancedPanel_value step h state
  = match step with indigo => Throw | _ => Ret (VStr estr) end.
Proof.
  intros Hraw Hlast. unfold initial_state.
  rewrite bool_decide_eq_false_2 by exact Hraw. rewrite build_JObj.
  pose proof (build_members_lookup members module_heap (section_of step)) as Hl.
  destruct (build_members members module_heap) as [h2 m].
  destruct Hl as [_ Hl].
  assert (Hsec : get (h2 ++ [CObj m]) (VRef (length h2)) (section_of step)
                 = Ret VUndef \/
                 get (h2 ++ [CObj m]) (VRef (length h2)) (section_of step)
                 = Ret VNull).
  { simpl. unfold getp, read. rewrite lookup_app_r, Nat.sub_diag by lia.
    simpl. destruct Hlast as [Hn | Hn]; rewrite Hn in Hl.
    - rewrite Hl, (section_not_inherited _ (section_of_SECTIONS step)).
      now left.
    - destruct Hl as (h0 & e & _ & ->). now right. }
  unfold StepContent_first_read, AdvancedPanel_value, field_of, optional_field.
  destruct Hsec as [-> | ->]; (split; [reflexivity|]); now destruct step.
Qed.

(** One round of the loop on a segment with nothing under it. *)
Lemma walk_nullish h cur k ks lastk v p :
  h !! cur = Some (CObj p) ->
  p !! k = None \/ p !! k = Some VUndef \/ p !! k = Some VNull ->
  inherited k = false ->
  walk h cur (k :: ks) lastk v
  = walk (<[cur := CObj (<[k := VRef (length h)]> p)]> (h ++ [CObj ∅]))
         (length h) ks lastk v.
Proof.
  intros Hcur Hk Hin. cbn [walk].
  assert (Hg : exists x, getp h cur k = Ret x /\ nullish x = true).
  { unfold getp, read. rewrite Hcur. simpl.
    destruct Hk as [-> | [-> | ->]]; [rewrite Hin| |]; eauto. }
  destruct Hg as (x & -> & Hx). unfold mbind at 1, outcome_bind at 1.
  rewrite Hx.
  rewrite (setp_intro (h ++ [CObj ∅]) cur k (VRef (length h)) p
             (CObj (<[k := VRef (length h)]> p))).
  - reflexivity.
  - now apply lookup_app_l_Some.
  - unfold set_prop. destruct (p !! k) eqn:E; [reflexivity|].
    rewrite bool_decide_eq_false_2; [reflexivity|].
    intros ->. discriminate Hin.
Qed.

(** X21: writing [section.field] into an object that has nothing (or
    [null]) under [section] returns, and adds two objects to the store,
    which it leaves as it was otherwise: the copy of the given object
    with the new section, and the new section with the one field. *)
Theorem setAt_creates_section h d props path s f v :
  h !! d = Some (CObj props) ->
  split "." path = [s; f] ->
  props !! s = None \/ props !! s = Some VUndef \/ props !! s = Some VNull ->
  inherited s = false -> f <> "__proto__" ->
  setAt h d path v
  = Ret (h ++ [CObj (<[s := VRef (S (length h))]> props); CObj (<[f := v]> ∅)],
         length h).
Proof.
  intros Hd Hsplit Hs Hin Hf. unfold setAt, read. rewrite Hd, Hsplit.
  unfold mbind at 1, outcome_bind at 1.
  change (spread (CObj props)) with (CObj props).
  change (removelast [s; f]) with [s]. change (List.last [s; f] estr) with f.
  rewrite (walk_nullish _ _ s [] f v props); [| | exact Hs | exact Hin].
  2: now rewrite lookup_app_r, Nat.sub_diag by lia.
  cbn [walk].
  rewrite (setp_intro _ (length (h ++ [CObj props])) f v ∅
             (CObj (<[f := v]> ∅))).
  - unfold mbind, outcome_bind. f_equal. f_equal.
    rewrite length_app. simpl.
    replace (length h + 1)%nat with (S (length h)) by lia.
    apply list_eq. intros i.
    destruct (decide (i = S (length h))) as [->|Hi1].
    { rewrite list_lookup_insert_eq
        by (rewrite length_insert, !length_app; simpl; lia).
      rewrite lookup_app_r by lia.
      now replace (S (length h) - length h)%nat with 1%nat by lia. }
    rewrite list_lookup_insert_ne by congruence.
    destruct (decide (i = length h)) as [->|Hi0].
    { rewrite list_lookup_insert_eq by (rewrite !length_app; simpl; lia).
      now rewrite lookup_app_r, Nat.sub_diag by lia. }
    rewrite list_lookup_insert_ne by congruence.
    destruct (decide (i < length h)%nat) as [Hlt|Hge].
    + rewrite <- app_assoc. now rewrite !lookup_app_l by exact Hlt.
    + rewrite !lookup_ge_None_2; [reflexivity|..];
        rewrite !length_app; simpl; lia.
  - rewrite list_lookup_insert_ne by (rewrite length_app; simpl; lia).
    now rewrite lookup_app_r, Nat.sub_diag by lia.
  - unfold set_prop. rewrite lookup_empty.
    now rewrite bool_decide_eq_false_2.
Qed.

(** X22: in a document with the seven sections, [onSelect] on
    [section.field] returns a document that reads the value written at
    that field and, at every other field of the section, what the
    document read before. *)
Theorem onSelect_read_back h state path s f v :
  has_sections h state ->
  split "." path = [s; f] -> s ∈ SECTIONS -> f <> "__proto__" ->
  exists h' state',
    onSelect h state path v = Ret (h', state') /\
    field_of h' state' s f = Ret v /\
    forall f', f' <> f -> field_of h' state' s f' = field_of h state s f'.
Proof.
  intros Hsec Hsplit Hs Hf.
  pose proof Hsec as (d & props & -> & Hd & Hall).
  destruct (setAt_writes_through h d path s f v Hsec Hsplit Hs Hf)
    as (h' & r & l & p & Hset & Hold & Hp & Hnew & Hp').
  exists h', (VRef r). split; [|split].
  - unfold onSelect. now rewrite Hset.
  - unfold field_of. rewrite Hnew. simpl. unfold getp, read. rewrite Hp'.
    simpl. now rewrite lookup_insert_eq.
  - intros f' Hne. unfold field_of. rewrite Hnew, Hold. simpl.
    unfold getp, read. rewrite Hp', Hp. simpl.
    now rewrite lookup_insert_ne by congruence.
Qed.

End SectionFacts.

Section SectionExamples.
Import Nav Store Prim Utils Wizard Startup.

Lemma setAt_one_segment_witness :
  setAt module_heap DEFAULT_STATE "revision" (VBool true)
  = Ret (module_heap ++ [CObj (<["revision" := VBool true]> default_root)],
         length module_heap).
Proof.
  apply (setAt_one_segment module_heap DEFAULT_STATE "revision" (VBool true)
           default_root); [reflexivity | reflexivity | discriminate].
Defined.

Lemma setAt_fresh_branch_witness :
  exists h' r,
    setAt [CObj ∅] 0 "etp.log.daily" (VBool true) = Ret (h', r) /\
    r = 1%nat /\ h' !! 0%nat = Some (CObj ∅) /\
    h' !! r = Some (CObj (<["etp" := VRef 2]> ∅)).
Proof.
  destruct (setAt [CObj ∅] 0 "etp.log.daily" (VBool true))
    as [[h' r]| |] eqn:Hset; [|vm_compute in Hset; discriminate..].
  destruct (setAt_fresh_branch [CObj ∅] 0 "etp.log.daily" (VBool true) h' r
              ∅ "etp" "log" ["daily"]) as (Hr & Hold & Hnew);
    [reflexivity | reflexivity | left; reflexivity | exact Hset |].
  exists h', r. split; [reflexivity|]. split; [exact Hr|].
  split; [apply (Hold 0%nat); simpl; lia | exact Hnew].
Defined.

Lemma setAt_through_primitive_witness :
  setAt [CObj (<["etp" := VStr "none"]> ∅)] 0 "etp.blocks" (VBool true) = Throw.
Proof.
  apply (setAt_through_primitive _ 0 "etp.blocks" (VBool true)
           (<["etp" := VStr "none"]> ∅) "etp" "blocks" [] (VStr "none"));
    [reflexivity | reflexivity | reflexivity | reflexivity | discriminate].
Defined.

Lemma setAt_spares_root_witness :
  exists h' r,
    setAt module_heap DEFAULT_STATE "warp_range.mode" (VStr "rope")
      = Ret (h', r) /\
    r <> DEFAULT_STATE /\ h' !! DEFAULT_STATE = Some (CObj default_root).
Proof.
  destruct (setAt module_heap DEFAULT_STATE "warp_range.mode" (VStr "rope"))
    as [[h' r]| |] eqn:Hset; [|vm_compute in Hset; discriminate..].
  destruct (setAt_spares_root module_heap DEFAULT_STATE "warp_range.mode"
              (VStr "rope") h' r) as [Hne Hsame];
    [apply heap_closedb_sound; vm_compute; reflexivity
    | apply (finiteb_sound 3); vm_compute; reflexivity
    | exact Hset |].
  exists h', r. split; [reflexivity|]. split; [exact Hne | exact Hsame].
Defined.

Lemma snapshot_sections_witness :
  let '(h, state) :=
    initial_state
      (ReadText "{}" (Some (JObj [("etp", JObj []); ("etp", JNull)]))) in
  has_sections h state <->
  forall s, s ∈ SECTIONS ->
    exists ms,
      last_member s [("etp", JObj []); ("etp", JNull)] = Some (JObj ms).
Proof.
  apply (snapshot_sections "{}" [("etp", JObj []); ("etp", JNull)]).
  discriminate.
Defined.

Lemma snapshot_missing_section_witness :
  let '(h, state) :=
    initial_state (ReadText "{}" (Some (JObj [("etp", JNull)]))) in
  StepContent_first_read etp h state = Throw /\
  AdvancedPanel_value etp h state = Ret (VStr estr).
Proof.
  apply (snapshot_missing_section "{}" [("etp", JNull)] etp);
    [discriminate | right; reflexivity].
Defined.

Lemma setAt_creates_section_witness :
  setAt [CObj ∅] 0 "warp_range.notes" (VStr "towers")
  = Ret ([CObj ∅; CObj (<["warp_range" := VRef 2]> ∅);
          CObj (<["notes" := VStr "towers"]> ∅)], 1%nat).
Proof.
  apply (setAt_creates_section [CObj ∅] 0 ∅ "warp_range.notes" "warp_range"
           "notes" (VStr "towers"));
    [reflexivity | reflexivity | left; reflexivity | reflexivity | discriminate].
Defined.

Lemma onSelect_read_back_witness :
  exists h' state',
    onSelect module_heap (VRef DEFAULT_STATE) "etp.blocks" (VStr "Physical")
      = Ret (h', state') /\
    field_of h' state' "etp" "blocks" = Ret (VStr "Physical") /\
    field_of h' state' "etp" "logs" = Ret VUndef.
Proof.
  destruct (onSelect_read_back module_heap (VRef DEFAULT_STATE) "etp.blocks"
              "etp" "blocks" (VStr "Physical"))
    as (h' & state' & Hsel & Hf & Hother);
    [apply has_sectionsb_true; reflexivity | reflexivity | compute_done
    | discriminate |].
  exists h', state'. split; [exact Hsel|]. split; [exact Hf|].
  rewrite (Hother "logs") by discriminate. reflexivity.
Defined.

End SectionExamples.
